(** * gopack: the import graph, the checksum gate and the resolution pipeline

    A shallow embedding of graph.go, config.go and main.go, and the
    properties of the specification stated over it.

    Go maps are [gmap]s, nil-able pointers are [option]s, a run-time panic
    of the Go code is the [None] of a partial function (graph part) or the
    [Panicked] outcome (configuration and pipeline part). *)

From Stdlib Require Import Ascii String.
From stdpp Require Import gmap strings list fin_maps.

Set Warnings "-register-all,-clear-no-such-hyp,-notation-incompatible-prefix".

Open Scope string_scope.
Open Scope list_scope.

(** ** Dependencies as the graph stores them *)

(** Modelled from the spec: the flags [BranchFlag], [CommitFlag] and
    [TagFlag] passed to [setCheckout]; their declaration is in dep.go,
    which is not among the sources.  The spec: "at most one checkout spec
    (kind in branch, commit, tag + literal value)". *)
Inductive CheckoutKind := NoFlag | BranchFlag | CommitFlag | TagFlag.

(** Modelled from the spec: the struct [Dep], declared in dep.go.  The
    fields [Import], [CheckoutSpec] and [fetch] are read by main.go and
    config.go; the spec lists "import identifier; inferred SCM kind;
    source locator; at most one checkout spec; a boolean marking whether
    this dependency owns its own nested declaration". *)
Record Dep := mkDep {
  Import : string;
  Scm : string;
  Source : string;
  CheckoutFlag : CheckoutKind;
  CheckoutSpec : string;
  fetch : bool }.

(** Modelled from the spec: [NewDependency] of dep.go, which builds the
    Dep of an import identifier; the other facts are set afterwards. *)
Definition NewDependency (importPath : string) : Dep :=
  mkDep importPath "" "" NoFlag "" false.

(** ** strings.Split with a one-byte separator *)

(** [cut s sep] is the text before the first [sep] of [s], and the
    segments after it. *)
Fixpoint cut (s : string) (sep : ascii) : string * list string :=
  match s with
  | EmptyString => (EmptyString, [])
  | String c s' =>
      let (h, t) := cut s' sep in
      if Ascii.eqb c sep then (EmptyString, h :: t) else (String c h, t)
  end.

(** [strings.Split(s, sep)] for a separator of one byte: one segment more
    than there are separators in [s]. *)
Definition Split (s : string) (sep : ascii) : list string :=
  let (h, t) := cut s sep in h :: t.

Definition slash : ascii := "/"%char.

(** ** graph.go *)

Module Graph.

(** [type Node struct]; [Dependency] is a pointer, nil for an inner node. *)
Inductive Node := mkNode {
  Key : string;
  Dependency : option Dep;
  Leaf : bool;
  Nodes : gmap string Node }.

(** [type Graph struct { Nodes map[string]*Node }]. *)
Record Graph := mkGraph { Roots : gmap string Node }.

Definition NewGraph : Graph := mkGraph ∅.

(** [deepInsert]; [None] is the index-out-of-range panic of [keys[0]].
    The node found in, or created for, [nodes] is returned updated; the
    caller stores it back under its key. *)
Fixpoint deepInsert (nodes : gmap string Node) (keys : list string)
    (dependency : Dep) : option Node :=
  match keys with
  | [] => None
  | k0 :: newKeys =>
      let node :=
        match nodes !! k0 with
        | Some found => found
        | None => mkNode k0 None false ∅
        end in
      match newKeys with
      | [] => Some (mkNode (Key node) (Some dependency) true (Nodes node))
      | k1 :: _ =>
          match deepInsert (Nodes node) newKeys dependency with
          | Some child =>
              Some (mkNode (Key node) (Dependency node) (Leaf node)
                           (<[k1 := child]> (Nodes node)))
          | None => None
          end
      end
  end.

(** [func (graph *Graph) Insert(dependency *Dep)]. *)
Definition Insert (graph : Graph) (dependency : Dep) : option Graph :=
  let keys := Split (Import dependency) slash in
  match keys with
  | [] => None
  | k0 :: _ =>
      match deepInsert (Roots graph) keys dependency with
      | Some node => Some (mkGraph (<[k0 := node]> (Roots graph)))
      | None => None
      end
  end.

(** The loop of [Search] over the remaining keys. *)
Fixpoint walk (nodes : gmap string Node) (keys : list string) : option Node :=
  match keys with
  | [] => None
  | key :: rest =>
      match nodes !! key with
      | None => None
      | Some node => if Leaf node then Some node else walk (Nodes node) rest
      end
  end.

(** [func (graph *Graph) Search(importPath string) *Node]. *)
Definition Search (graph : Graph) (importPath : string) : option Node :=
  walk (Roots graph) (Split importPath slash).

(** A sequence of [Insert] calls, in order. *)
Fixpoint inserts (graph : Graph) (deps : list Dep) : option Graph :=
  match deps with
  | [] => Some graph
  | d :: rest =>
      match Insert graph d with
      | Some graph' => inserts graph' rest
      | None => None
      end
  end.

(** *** Addressing the nodes of the trie *)

(** The node reached from [nodes] along [path], whatever its flags. *)
Fixpoint node_at (nodes : gmap string Node) (path : list string) : option Node :=
  match path with
  | [] => None
  | k :: rest =>
      match nodes !! k with
      | None => None
      | Some n => match rest with [] => Some n | _ :: _ => node_at (Nodes n) rest end
      end
  end.

(** What [Search] and the leaf invariant look at in a node. *)
Definition flags (n : Node) : bool * option Dep := (Leaf n, Dependency n).

Definition flags_at (nodes : gmap string Node) (path : list string)
    : option (bool * option Dep) :=
  flags <$> node_at nodes path.

Definition segments (d : Dep) : list string := Split (Import d) slash.

(** [p] is a proper initial part of [q]. *)
Definition strict_prefix (p q : list string) : Prop := p `prefix_of` q ∧ p ≠ q.

#[global] Instance strict_prefix_dec p q : Decision (strict_prefix p q).
Proof. unfold strict_prefix. apply _. Defined.

(** A path holds a leaf. *)
Definition is_leaf (g : Graph) (p : list string) : Prop :=
  fst <$> flags_at (Roots g) p = Some true.

(** The leaf invariant, on the flags of every addressable node. *)
Definition leaf_inv (g : Graph) : Prop :=
  ∀ p f, flags_at (Roots g) p = Some f → (f.1 = true ↔ f.2 ≠ None).

(** [Search] answers with a leaf that holds [d]. *)
Definition finds (g : Graph) (importPath : string) (d : Dep) : Prop :=
  ∃ n, Search g importPath = Some n ∧ Leaf n = true ∧ Dependency n = Some d.

(** *** The shape of a trie: everything but the dependencies *)

Inductive Shape := mkShape {
  shape_key : string;
  shape_leaf : bool;
  shape_children : gmap string Shape }.

Fixpoint shape (n : Node) : Shape :=
  mkShape (Key n) (Leaf n) (shape <$> Nodes n).

Definition graph_shape (g : Graph) : gmap string Shape := shape <$> Roots g.

Fixpoint leaves (n : Node) : nat :=
  (if Leaf n then 1 else 0)
  + map_fold (λ _ child acc, leaves child + acc) 0 (Nodes n).

Definition leaf_count (g : Graph) : nat :=
  map_fold (λ _ child acc, leaves child + acc) 0 (Roots g).

End Graph.

(** ** More ways to look at a trie *)

Module GraphViews.
Import Graph.

(** The dependency a path answers with: that of its node, if the node is
    a leaf. *)
Definition leaf_view (nodes : gmap string Node) (p : list string)
    : option (option Dep) :=
  match flags_at nodes p with
  | Some (true, dep) => Some dep
  | _ => None
  end.

(** Every node is stored under its own key. *)
Definition keyed (nodes : gmap string Node) : Prop :=
  ∀ p n, node_at nodes p = Some n → last p = Some (Key n).

(** The paths a list of dependencies is inserted at. *)
Definition identifiers (ds : list Dep) : gset (list string) :=
  list_to_set (segments <$> ds).

#[global] Instance is_leaf_dec g p : Decision (is_leaf g p).
Proof. unfold is_leaf. apply _. Defined.

End GraphViews.

(** ** The declaration file, as go-toml hands it over *)

(** A value of a parsed declaration: a string or a table.  A table keeps
    its keys in the order of [Keys()]. *)
Inductive TomlValue :=
  | TString (s : string)
  | TTable (entries : list (string * TomlValue)).

Definition TomlTree := list (string * TomlValue).

(** [(t *TomlTree) Get(key)] of go-toml: the value under [key], or nil. *)
Fixpoint TomlTree_Get (t : TomlTree) (key : string) : option TomlValue :=
  match t with
  | [] => None
  | (k, v) :: rest => if String.eqb k key then Some v else TomlTree_Get rest key
  end.

(** [(t *TomlTree) Keys()] of go-toml, on a tree that is not nil. *)
Definition TomlTree_Keys (t : TomlTree) : list string := t.*1.

(** ** The world a run acts on *)

(** The ways out of a Go function: a normal return, [os.Exit(code)], a
    run-time panic, and, for the recursion over nested declarations only,
    a recursion budget that ran out. *)
Inductive Outcome (A : Type) :=
  | Return (a : A)
  | Exit (code : Z)
  | Panic
  | OutOfFuel.
Arguments Return {A} a.
Arguments Exit {A} code.
Arguments Panic {A}.
Arguments OutOfFuel {A}.

(** What a run does that the properties speak about.  [EvValidate] is a
    ghost event: [Dep.Validate] has no effect of its own, the caller
    records that it ran and what it answered. *)
Inductive Event :=
  | EvValidate (importPath : string) (ok : bool)
  | EvRetrieve (importPath : string)
  | EvUpdate (importPath : string)
  | EvCheckout (importPath : string) (kind : CheckoutKind) (spec : string)
  | EvSymlink (repository : string)
  | EvPrint (text : string)
  | EvWriteChecksum (content : string).

(** A file that is read whole: absent, there but unreadable, or its bytes. *)
Inductive File := Missing | Unreadable | Content (bytes : string).

(** A declaration file on disk: what [toml.LoadFile] makes of it (nothing
    when it is malformed) and the MD5 digest of its bytes, the only thing
    [checksum] uses of them. *)
Record DeclFile := mkDeclFile {
  parsed : option TomlTree;
  md5sum : string }.

Record World := mkWorld {
  graph : Graph.Graph;            (* the one import graph of the run *)
  marker : File;                  (* the file at [checksumPath()] *)
  files : gmap string DeclFile;   (* declaration files, by path *)
  vendored : gset string;         (* import paths present in the vendor workspace *)
  unreachable : gset string;      (* import paths whose retrieval fails *)
  unpinnable : gset string;       (* import paths whose checkout fails *)
  symlink_fails : bool;           (* [os.Symlink] fails, not with EEXIST *)
  write_fails : bool;             (* [ioutil.WriteFile] of the marker fails *)
  trace : list Event }.

Definition M (A : Type) : Type := World → Outcome A * World.

Definition ret {A} (a : A) : M A := λ w, (Return a, w).

Definition bind {A B} (m : M A) (k : A → M B) : M B :=
  λ w, match m w with
       | (Return a, w') => k a w'
       | (Exit c, w') => (Exit c, w')
       | (Panic, w') => (Panic, w')
       | (OutOfFuel, w') => (OutOfFuel, w')
       end.

Notation "x <- m ;; k" := (bind m (λ x, k))
  (at level 100, m at next level, right associativity, only parsing).
Notation "' pat <- m ;; k" := (bind m (λ x, match x with pat => k end))
  (at level 100, pat pattern, m at next level, right associativity, only parsing).
Notation "m ;;; k" := (bind m (λ _, k))
  (at level 100, right associativity, only parsing).

Definition exit {A} (code : Z) : M A := λ w, (Exit code, w).
Definition panic {A} : M A := λ w, (Panic, w).
Definition out_of_fuel {A} : M A := λ w, (OutOfFuel, w).

Definition emit (e : Event) : M unit :=
  λ w, (Return tt, mkWorld (graph w) (marker w) (files w) (vendored w)
                     (unreachable w) (unpinnable w) (symlink_fails w)
                     (write_fails w) (trace w ++ [e])).

Definition set_graph (g : Graph.Graph) : M unit :=
  λ w, (Return tt, mkWorld g (marker w) (files w) (vendored w)
                     (unreachable w) (unpinnable w) (symlink_fails w)
                     (write_fails w) (trace w)).

Definition set_marker (f : File) : M unit :=
  λ w, (Return tt, mkWorld (graph w) f (files w) (vendored w)
                     (unreachable w) (unpinnable w) (symlink_fails w)
                     (write_fails w) (trace w)).

Definition add_vendored (importPath : string) : M unit :=
  λ w, (Return tt, mkWorld (graph w) (marker w) (files w)
                     ({[importPath]} ∪ vendored w)
                     (unreachable w) (unpinnable w) (symlink_fails w)
                     (write_fails w) (trace w)).

Definition ask {A} (f : World → A) : M A := λ w, (Return (f w), w).

(** The type assertions on what [Get] returned, to a string and to a tree
    pointer: a panic on nil and on the other kind of value. *)
Definition as_string (v : option TomlValue) : M string :=
  match v with Some (TString s) => ret s | _ => panic end.

Definition as_tree (v : option TomlValue) : M TomlTree :=
  match v with Some (TTable t) => ret t | _ => panic end.

(** ** main.go: the ways to stop *)

(** [fmtcolor]; the colour escapes around the text are left out. *)
Definition fmtcolor (text : string) : M unit := emit (EvPrint text).

(** [failf]: the message, then [os.Exit(1)]. *)
Definition failf {A} (text : string) : M A := fmtcolor text ;;; exit 1.

(** [fail]: the value printed, then [os.Exit(1)]. *)
Definition fail {A} (text : string) : M A := emit (EvPrint text) ;;; exit 1.

(** Modelled from the spec: [ProjectError], declared outside the sources:
    "one validation failure tied to one Dep field". *)
Record ProjectError := mkProjectError {
  error_import : string;
  error_field : string }.

(** Modelled from the spec: [ProjectError.String], the text of an error. *)
Definition ProjectError_String (e : ProjectError) : string :=
  error_field e +:+ ": " +:+ error_import e.

Fixpoint print_errors (errors : list ProjectError) : M unit :=
  match errors with
  | [] => ret tt
  | e :: rest => emit (EvPrint (ProjectError_String e)) ;;; print_errors rest
  end.

(** [failWith]: every error printed, then [os.Exit(len(errors))]; a
    return when there is none. *)
Definition failWith (errors : list ProjectError) : M unit :=
  if decide (0 < length errors)%nat
  then print_errors errors ;;; exit (Z.of_nat (length errors))
  else ret tt.

(** ** dep.go, from the specification *)

(** Modelled from the spec: [Dep.setScm], "inferred SCM kind": the kind
    the entry names. *)
Definition setScm (d : Dep) (t : TomlTree) : Dep :=
  match TomlTree_Get t "scm" with
  | Some (TString s) =>
      mkDep (Import d) s (Source d) (CheckoutFlag d) (CheckoutSpec d) (fetch d)
  | _ => d
  end.

(** Modelled from the spec: [Dep.setSource], the "source locator". *)
Definition setSource (d : Dep) (t : TomlTree) : Dep :=
  match TomlTree_Get t "source" with
  | Some (TString s) =>
      mkDep (Import d) (Scm d) s (CheckoutFlag d) (CheckoutSpec d) (fetch d)
  | _ => d
  end.

(** Modelled from the spec: [Dep.setCheckout]; "declarations may legally
    set more than one of branch/commit/tag; the source silently lets the
    last-applied field win". *)
Definition setCheckout (d : Dep) (t : TomlTree) (key : string)
    (flag : CheckoutKind) : Dep :=
  match TomlTree_Get t key with
  | Some (TString s) => mkDep (Import d) (Scm d) (Source d) flag s (fetch d)
  | _ => d
  end.

(** Modelled from the spec: [Dep.CheckoutType], the kind of the checkout
    spec, empty when none is declared. *)
Definition CheckoutType (d : Dep) : string :=
  match CheckoutFlag d with
  | NoFlag => ""
  | BranchFlag => "branch"
  | CommitFlag => "commit"
  | TagFlag => "tag"
  end.

(** Modelled from the spec: [Dep.Validate], which "reports a field-level
    error for missing/inconsistent required facts (absent identifier, ...,
    unresolved SCM kind)": the field at fault, or nil.  A source locator
    needs an SCM kind to be used.  The call has no argument to compare the
    identifier with, so a self-reference is not looked for here. *)
Definition Validate (d : Dep) : option string :=
  if decide (Import d = "") then Some "import"
  else if decide (Source d ≠ "" ∧ Scm d = "") then Some "scm"
  else None.

(** The declaration file of a vendored dependency. *)
Definition Join (dir name : string) : string := dir +:+ "/" +:+ name.

Definition VendorDir : string := ".gopack/vendor".

Definition nested_dir (d : Dep) : string :=
  Join (Join VendorDir "src") (Import d).

Definition owns_declaration (d : Dep) (w : World) : bool :=
  bool_decide (is_Some (files w !! Join (nested_dir d) "gopack.config")).

(** Modelled from the spec: the retrieval operation of the version-control
    client, "treated as an opaque operation"; a failure is "immediately
    fatal", with "exit code 1 on any other fatal error". *)
Definition retrieve (d : Dep) : M unit :=
  emit (EvRetrieve (Import d)) ;;;
  down <- ask (λ w, bool_decide (Import d ∈ unreachable w)) ;;
  if down : bool then exit 1 else add_vendored (Import d).

(** Modelled from the spec: [Dep.Fetch(forceRefetch)]: "if forceRefetch is
    false and the dependency's target path already exists on disk,
    retrieval is skipped [...]; otherwise the retrieval operation is invoked
    unconditionally".  The Dep comes back with its private boolean set, "a
    boolean marking whether this dependency owns its own nested
    declaration". *)
Definition Fetch (d : Dep) (forceRefetch : bool) : M Dep :=
  present <- ask (λ w, bool_decide (Import d ∈ vendored w)) ;;
  (if negb forceRefetch && present then ret tt else retrieve d) ;;;
  owns <- ask (owns_declaration d) ;;
  ret (mkDep (Import d) (Scm d) (Source d) (CheckoutFlag d) (CheckoutSpec d) owns).

(** Modelled from the spec: [Dep.Get], the step main.go announces as
    "Updating"; a failure of the client is fatal. *)
Definition Dep_Get (d : Dep) : M unit :=
  emit (EvUpdate (Import d)) ;;;
  down <- ask (λ w, bool_decide (Import d ∈ unreachable w)) ;;
  if down : bool then exit 1 else ret tt.

(** Modelled from the spec: [Dep.switchToBranchOrTag]: "the working copy is
    pinned to that branch/commit/tag"; a failure of the client is fatal. *)
Definition switchToBranchOrTag (d : Dep) : M unit :=
  emit (EvCheckout (Import d) (CheckoutFlag d) (CheckoutSpec d)) ;;;
  bad <- ask (λ w, bool_decide (Import d ∈ unpinnable w)) ;;
  if bad : bool then exit 1 else ret tt.

(** ** config.go *)

Record Config := mkConfig {
  Checksum : option string;
  Path : string;
  Repository : string;
  DepsTree : option TomlTree;
  DevDepsTree : option TomlTree }.

(** Modelled from the spec: the struct [Dependencies], declared outside
    the sources: "index-aligned parallel sequences of declaration key, raw
    import string, and Dep; shared ownership (not copy) of one Graph".  The
    slices are made with their final length; [DepList] holds nil until an
    index is assigned.  [ImportGraph] points to the graph of the run, which
    the world holds. *)
Record Dependencies := mkDependencies {
  Imports : list string;
  Keys : list string;
  DepList : list (option Dep) }.

(** [toml.LoadFile]. *)
Definition LoadFile (path : string) : M (option TomlTree) :=
  ask (λ w, files w !! path ≫= parsed).

(** [NewConfig]. *)
Definition NewConfig (dir : string) : M Config :=
  let path := Join dir "gopack.config" in
  loaded <- LoadFile path ;;
  match loaded with
  | None => fail "cannot load the declaration file"
  | Some t =>
      deps <- match TomlTree_Get t "deps" with
             | None => ret None
             | v => tree <- as_tree v ;; ret (Some tree)
             end ;;
      devdeps <- match TomlTree_Get t "dev-deps" with
                | None => ret None
                | v => tree <- as_tree v ;; ret (Some tree)
                end ;;
      repo <- match TomlTree_Get t "repo" with
             | None => ret ""
             | v => as_string v
             end ;;
      ret (mkConfig None path repo deps devdeps)
  end.

(** [graph.Insert] on the graph of the run. *)
Definition graph_Insert (d : Dep) : M unit :=
  g <- ask graph ;;
  match Graph.Insert g d with
  | Some g' => set_graph g'
  | None => panic
  end.

(** [InitRepo]; the two [os.MkdirAll], whose errors are dropped, leave no
    trace in the world. *)
Definition InitRepo (c : Config) : M unit :=
  if decide (Repository c ≠ "") then
    emit (EvSymlink (Repository c)) ;;;
    broken <- ask symlink_fails ;;
    (if broken : bool then fail "symlink" else ret tt) ;;;
    graph_Insert (NewDependency (Repository c))
  else ret tt.

(** [encoding/hex.EncodeToString]. *)
Definition hex_digit (n : N) : ascii :=
  match n with
  | 0 => "0" | 1 => "1" | 2 => "2" | 3 => "3" | 4 => "4" | 5 => "5"
  | 6 => "6" | 7 => "7" | 8 => "8" | 9 => "9" | 10 => "a" | 11 => "b"
  | 12 => "c" | 13 => "d" | 14 => "e" | _ => "f"
  end%N%char.

Fixpoint EncodeToString (bytes : string) : string :=
  match bytes with
  | EmptyString => EmptyString
  | String c rest =>
      let n := N_of_ascii c in
      String (hex_digit (n / 16)) (String (hex_digit (n mod 16)) (EncodeToString rest))
  end.

(** [checksum]: the digest is computed on the first call and kept. *)
Definition checksum (c : Config) : M (string * Config) :=
  match Checksum c with
  | Some sum => ret (EncodeToString sum, c)
  | None =>
      dat <- ask (λ w, files w !! Path c) ;;
      match dat with
      | None => fail "cannot read the declaration file"
      | Some f =>
          ret (EncodeToString (md5sum f),
               mkConfig (Some (md5sum f)) (Path c) (Repository c)
                        (DepsTree c) (DevDepsTree c))
      end
  end.

(** What [ioutil.ReadFile] returns for the marker: the bytes, and whether
    it failed with a not-exist error or with another one. *)
Inductive ReadError := NoError | NotExist | OtherError.

Definition ReadFile (f : File) : string * ReadError :=
  match f with
  | Missing => ("", NotExist)
  | Unreadable => ("", OtherError)
  | Content bytes => (bytes, NoError)
  end.

(** [modifiedChecksum]; [||] does not evaluate [c.checksum()] when the
    marker does not exist. *)
Definition modifiedChecksum (c : Config) : M (bool * Config) :=
  f <- ask marker ;;
  let (dat, err) := ReadFile f in
  match err with
  | NotExist => ret (true, c)
  | _ =>
      '(sum, c') <- checksum c ;;
      ret (negb (String.eqb dat sum), c')
  end.

(** [WriteChecksum]. *)
Definition WriteChecksum (c : Config) : M Config :=
  '(sum, c') <- checksum c ;;
  broken <- ask write_fails ;;
  if broken : bool then fail "cannot write the checksum"
  else emit (EvWriteChecksum sum) ;;; set_marker (Content sum) ;;; ret c'.

(** [slice[pos] = x]: a panic when [pos] is out of range. *)
Definition store {A} (l : list A) (pos : nat) (x : A) : M (list A) :=
  if decide (pos < length l)%nat then ret (<[pos := x]> l) else panic.

(** The loop of [addDepsTree] over the keys that remain. *)
Fixpoint addDepsTree_loop (deps : Dependencies) (depsTree : TomlTree)
    (keys : list string) (modified : bool) (pos : nat)
    : M (Dependencies * option string) :=
  match keys with
  | [] => ret (deps, None)
  | k :: rest =>
      depTree <- as_tree (TomlTree_Get depsTree k) ;;
      importPath <- as_string (TomlTree_Get depTree "import") ;;
      let d := NewDependency importPath in
      let d := setScm d depTree in
      let d := setSource d depTree in
      let d := setCheckout d depTree "branch" BranchFlag in
      let d := setCheckout d depTree "commit" CommitFlag in
      let d := setCheckout d depTree "tag" TagFlag in
      match Validate d with
      | Some err =>
          emit (EvValidate (Import d) false) ;;; ret (deps, Some err)
      | None =>
          emit (EvValidate (Import d) true) ;;;
          d <- Fetch d modified ;;
          keys' <- store (Keys deps) pos k ;;
          imports' <- store (Imports deps) pos (Import d) ;;
          list' <- store (DepList deps) pos (Some d) ;;
          graph_Insert d ;;;
          addDepsTree_loop (mkDependencies imports' keys' list') depsTree rest
            modified (S pos)
      end
  end.

(** [addDepsTree]. *)
Definition addDepsTree (deps : Dependencies) (depsTree : option TomlTree)
    (modified : bool) (pos : nat) : M (Dependencies * option string) :=
  match depsTree with
  | None => ret (deps, None)
  | Some t => addDepsTree_loop deps t (TomlTree_Keys t) modified pos
  end.

(** [depsTree.Keys()] through a pointer that may be nil: a nil pointer
    dereference in go-toml. *)
Definition Keys_of (t : option TomlTree) : M (list string) :=
  match t with
  | Some t => ret (TomlTree_Keys t)
  | None => panic
  end.

(** [LoadDependencyModel]: the configuration with its digest as far as it
    was computed, the set, and the error. *)
Definition LoadDependencyModel (c : Config)
    : M (Config * option Dependencies * option string) :=
  let totalDeps :=
    (match DepsTree c with Some t => length (TomlTree_Keys t) | None => 0 end
     + match DevDepsTree c with Some t => length (TomlTree_Keys t) | None => 0 end)%nat in
  if decide (totalDeps = 0%nat) then ret (c, None, None)
  else
    let deps := mkDependencies (replicate totalDeps "") (replicate totalDeps "")
                               (replicate totalDeps None) in
    '(modified, c) <- modifiedChecksum c ;;
    '(deps, err) <- addDepsTree deps (DepsTree c) modified 0 ;;
    match err with
    | Some e => ret (c, None, Some e)
    | None =>
        keys <- Keys_of (DepsTree c) ;;
        '(deps, err) <- addDepsTree deps (DevDepsTree c) modified (length keys) ;;
        match err with
        | Some e => ret (c, None, Some e)
        | None => ret (c, Some deps, None)
        end
    end.

(** Modelled from the spec: [Dep.LoadTransitiveDeps], which "parses that
    declaration and returns a new Dependencies set scoped to the same
    shared Graph, or nothing if the nested declaration has no
    dependencies". *)
Definition LoadTransitiveDeps (d : Dep) : M (option Dependencies * option string) :=
  c <- NewConfig (nested_dir d) ;;
  '(_, deps, err) <- LoadDependencyModel c ;;
  ret (deps, err).

(** ** dependencies.go, from the specification *)

(** Modelled from the spec: [ProjectStats], the facts of the analysis of
    the project's own sources, "specified only at [its] boundary". *)
Inductive ProjectStats := mkProjectStats.

Definition present (l : list (option Dep)) : list Dep := omap id l.

(** The members whose identifier a member declared before them has too. *)
Fixpoint duplicates (seen : list string) (ds : list Dep) : list ProjectError :=
  match ds with
  | [] => []
  | d :: rest =>
      (if bool_decide (Import d ∈ seen)
       then [mkProjectError (Import d) "duplicate"] else [])
      ++ duplicates (Import d :: seen) rest
  end.

Definition member_errors (d : Dep) : list ProjectError :=
  match Validate d with
  | Some field => [mkProjectError (Import d) field]
  | None => []
  end.

(** Modelled from the spec: [Dependencies.Validate], which "runs
    Dep.Validate over every member plus whole-set checks (e.g., duplicate
    identifiers across main/dev), returning the full aggregated error
    list". *)
Definition Dependencies_Validate (deps : Dependencies) (p : ProjectStats)
    : list ProjectError :=
  flat_map member_errors (present (DepList deps))
  ++ duplicates [] (present (DepList deps)).

(** Modelled from the spec: [Dependencies.VisitDeps], which "applies a
    caller-supplied [...] routine to every Dep in declaration order [...]
    synchronously". *)
Fixpoint visit (l : list (option Dep)) (fn : option Dep → M unit) : M unit :=
  match l with
  | [] => ret tt
  | dep :: rest => fn dep ;;; visit rest fn
  end.

Definition VisitDeps (deps : Dependencies) (fn : option Dep → M unit) : M unit :=
  visit (DepList deps) fn.

(** ** main.go: the pipeline *)

Definition updating_text (d : Dep) : string :=
  "     Updating: `" +:+ Import d +:+ "`".

Definition updated_text (d : Dep) : string :=
  "      Updated: `" +:+ Import d +:+ "` at "
  +:+ CheckoutType d +:+ " " +:+ CheckoutSpec d.

(** The routine [loadTransitiveDependencies] hands to [VisitDeps], with
    the recursive call as [recurse]; a nil Dep panics at [dep.Import]. *)
Definition routine (recurse : Dependencies → M unit) (dep : option Dep) : M unit :=
  match dep with
  | None => panic
  | Some dep =>
      fmtcolor (updating_text dep) ;;;
      Dep_Get dep ;;;
      (if decide (CheckoutType dep ≠ "") then
         fmtcolor (updated_text dep) ;;;
         switchToBranchOrTag dep
       else ret tt) ;;;
      if fetch dep then
        '(transitive, err) <- LoadTransitiveDeps dep ;;
        match err with
        | Some e => failf e
        | None =>
            match transitive with
            | Some t => recurse t
            | None => ret tt
            end
        end
      else ret tt
  end.

(** [loadTransitiveDependencies]; each level of the recursion takes one
    unit of [fuel]. *)
Fixpoint loadTransitiveDependencies (fuel : nat) (dependencies : Dependencies)
    : M unit :=
  match fuel with
  | O => out_of_fuel
  | S fuel' =>
      VisitDeps dependencies (routine (loadTransitiveDependencies fuel'))
  end.

(** [loadConfiguration]; [NewGraph()] starts the graph of the run. *)
Definition loadConfiguration (dir : string) : M (Config * option Dependencies) :=
  set_graph Graph.NewGraph ;;;
  config <- NewConfig dir ;;
  InitRepo config ;;;
  '(config, dependencies, err) <- LoadDependencyModel config ;;
  match err with
  | Some e => failf e
  | None => ret (config, dependencies)
  end.

(** [loadDependencies]. *)
Definition loadDependencies (fuel : nat) (root : string) (p : ProjectStats)
    : M (Config * option Dependencies) :=
  '(config, dependencies) <- loadConfiguration root ;;
  match dependencies with
  | Some deps =>
      failWith (Dependencies_Validate deps p) ;;;
      loadTransitiveDependencies fuel deps ;;;
      config <- WriteChecksum config ;;
      ret (config, dependencies)
  | None => ret (config, dependencies)
  end.

(** ** Relations between the world before and after *)

(** The part [f] of the world is the same afterwards. *)
Definition keeps {X} (f : World → X) : relation World := λ w w', f w' = f w.

(** An event list in which every retrieval comes directly after the
    successful validation of the same identifier. *)
Definition validated_first (evs : list Event) : Prop :=
  ∀ i importPath,
    evs !! i = Some (EvRetrieve importPath) →
    ∃ j, i = S j ∧ evs !! j = Some (EvValidate importPath true).

(** The trace grows by such a list. *)
Definition grows_validated : relation World := λ w w',
  ∃ evs, trace w' = trace w ++ evs ∧ validated_first evs.



(** [m] moves the world along [R], however it ends, and leaves with a
    status in [E] when it exits. *)
Definition obeys {A} (R : relation World) (E : Z → Prop) (m : M A) : Prop :=
  ∀ w, R w (m w).2 ∧ ∀ c, (m w).1 = Exit c → E c.

(** Any two worlds. *)
Definition anything : relation World := λ _ _, True.

(** The world with more events on its trace. *)
Definition add_trace (evs : list Event) (w : World) : World :=
  mkWorld (graph w) (marker w) (files w) (vendored w) (unreachable w)
          (unpinnable w) (symlink_fails w) (write_fails w) (trace w ++ evs).

(** A Dep that passes its own validation. *)
Definition valid (d : Dep) : Prop := Validate d = None.

(** The cached digest of a configuration is the digest of its file. *)
Definition coherent (c : Config) (w : World) : Prop :=
  ∀ s, Checksum c = Some s →
       ∃ f, files w !! Path c = Some f ∧ s = md5sum f.

(** ** More relations and conditions on declarations *)

(** No leaf of the import graph is lost. *)
Definition leaves_kept : relation World := λ w w',
  ∀ p, Graph.is_leaf (graph w) p → Graph.is_leaf (graph w') p.

(** Every entry of a dependency table is a table with a string under
    "import". *)
Definition well_formed (t : TomlTree) : Prop :=
  ∀ k, k ∈ TomlTree_Keys t →
       ∃ entry importPath,
         TomlTree_Get t k = Some (TTable entry) ∧
         TomlTree_Get entry "import" = Some (TString importPath).

(** The keys of a table that may be absent. *)
Definition keys_of (t : option TomlTree) : list string :=
  from_option TomlTree_Keys [] t.

(** Every update the trace gains names a leaf path of the import graph,
    and no leaf is lost. *)
Definition registered : relation World := λ w w',
  leaves_kept w w' ∧
  ∀ i, EvUpdate i ∈ trace w' →
       EvUpdate i ∈ trace w ∨ Graph.is_leaf (graph w') (Split i slash).

(** The members of a set are leaf paths of the graph. *)
Definition members_registered (deps : Dependencies) (w : World) : Prop :=
  ∀ d, Some d ∈ DepList deps → Graph.is_leaf (graph w) (Graph.segments d).

(** ** A declaration that names itself *)

(** The Dep of [importPath] as [Fetch] returns it when the vendored copy
    holds a declaration, and the set that declares it under [key]. *)
Definition owner (importPath : string) : Dep :=
  mkDep importPath "" "" NoFlag "" true.

Definition self_set (key importPath : string) : Dependencies :=
  mkDependencies [importPath] [key] [Some (owner importPath)].

(** The vendored copy of [importPath] holds a declaration whose only
    entry is [importPath] itself, and the client can reach it. *)
Definition declares_itself (key importPath : string) (w : World) : Prop :=
  (∃ f, files w !! Join (nested_dir (owner importPath)) "gopack.config"
        = Some f ∧
        parsed f
        = Some [("deps",
                 TTable [(key, TTable [("import", TString importPath)])])]) ∧
  importPath ∉ unreachable w.

(** ** Depth-first resolution, as the specification words it *)

(** A dependency with the trees of its nested set, in declaration order. *)
Inductive Tree := TNode (d : Dep) (children : list Tree).

Definition root (t : Tree) : Dep := match t with TNode d _ => d end.






(** ** Declarations and worlds to run the model on *)

Module Scenario.

Definition entry (fields : list (string * string)) : TomlValue :=
  TTable (prod_map id TString <$> fields).

Definition stats : ProjectStats := mkProjectStats.

(** A project directory holding the declaration [t], before any run: no
    marker, nothing vendored, every client operation succeeds. *)
Definition first_run (t : TomlTree) : World :=
  mkWorld Graph.NewGraph Missing
          {[ Join "." "gopack.config" := mkDeclFile (Some t) "0123456789abcdef" ]}
          ∅ ∅ ∅ false false [].

(** The same directory with the marker of an earlier declaration. *)
Definition stale_run (t : TomlTree) : World :=
  mkWorld Graph.NewGraph (Content "stale")
          {[ Join "." "gopack.config" := mkDeclFile (Some t) "0123456789abcdef" ]}
          ∅ ∅ ∅ false false [].

(** One dependency, pinned to a branch. *)
Definition one_dep : TomlTree :=
  [("deps", TTable [("foo", entry [("import", "example.org/foo");
                                   ("branch", "dev")])])].

(** A valid dependency, then one whose identifier is empty. *)
Definition invalid_second : TomlTree :=
  [("deps", TTable [("foo", entry [("import", "example.org/foo")]);
                    ("bar", entry [("import", "")])])].




(** The configuration [NewConfig] makes of [one_dep], and the set that
    comes of it. *)
Definition one_dep_config : Config :=
  mkConfig None (Join "." "gopack.config") ""
           (Some [("foo", entry [("import", "example.org/foo");
                                 ("branch", "dev")])]) None.

Definition one_dep_set : Dependencies :=
  mkDependencies ["example.org/foo"] ["foo"]
                 [Some (mkDep "example.org/foo" "" "" BranchFlag "dev" false)].

(** Development dependencies only. *)
Definition dev_only : TomlTree :=
  [("dev-deps", TTable [("foo", entry [("import", "example.org/foo")])])].

Definition dev_only_config : Config :=
  mkConfig None (Join "." "gopack.config") ""
           None (Some [("foo", entry [("import", "example.org/foo")])]).

(** Two siblings, the first of which declares a dependency of its own. *)
Definition d1 : Dep := mkDep "example.org/d1" "" "" TagFlag "v1" true.



(** A project that names its own repository, with one dependency. *)
Definition with_repo : TomlTree :=
  [("repo", TString "example.org/me");
   ("deps", TTable [("foo", entry [("import", "example.org/foo")])])].

Definition with_repo_config : Config :=
  mkConfig (Some "0123456789abcdef") (Join "." "gopack.config")
           "example.org/me"
           (Some [("foo", entry [("import", "example.org/foo")])]) None.

Definition with_repo_set : Dependencies :=
  mkDependencies ["example.org/foo"] ["foo"]
                 [Some (NewDependency "example.org/foo")].

(** The configuration of [one_dep] once its digest has been read. *)
Definition one_dep_digested : Config :=
  mkConfig (Some "0123456789abcdef") (Join "." "gopack.config") ""
           (Some [("foo", entry [("import", "example.org/foo");
                                 ("branch", "dev")])]) None.

(** A directory whose declaration file is gone, with an old marker. *)
Definition file_gone : World :=
  mkWorld Graph.NewGraph (Content "stale") ∅ ∅ ∅ ∅ false false [].

(** One identifier declared under three keys. *)
Definition thrice : TomlTree :=
  [("deps", TTable [("a", entry [("import", "example.org/foo")]);
                    ("b", entry [("import", "example.org/foo")]);
                    ("c", entry [("import", "example.org/foo")])])].

(** A vendored package whose declaration names the package itself. *)
Definition loop_world : World :=
  mkWorld Graph.NewGraph Missing
          {[ Join (nested_dir (owner "example.org/loop")) "gopack.config" :=
               mkDeclFile
                 (Some [("deps",
                         TTable [("loop",
                                  TTable [("import",
                                           TString "example.org/loop")])])])
                 "00112233445566778899aabbccddeeff" ]}
          ∅ ∅ ∅ false false [].

End Scenario.

(** * Properties *)

(** ** The import graph *)

Module GraphFacts.
Import Graph.

Lemma Split_cons (s : string) (sep : ascii) :
  ∃ h t, Split s sep = h :: t.
Proof. unfold Split. destruct (cut s sep) as [h t]. eauto. Qed.

Lemma cut_app (s1 s2 : string) (sep : ascii) :
  cut (s1 +:+ String sep s2) sep
  = (fst (cut s1 sep), snd (cut s1 sep) ++ Split s2 sep).
Proof.
  induction s1 as [|c s1 IH]; simpl.
  - rewrite Ascii.eqb_refl. unfold Split. by destruct (cut s2 sep).
  - rewrite IH. destruct (cut s1 sep) as [h t]; simpl.
    by destruct (Ascii.eqb c sep).
Qed.

(** Appending a separator and more text appends the segments of the text. *)
Lemma Split_app (s1 s2 : string) (sep : ascii) :
  Split (s1 +:+ String sep s2) sep = Split s1 sep ++ Split s2 sep.
Proof.
  unfold Split at 1 2. rewrite cut_app. by destruct (cut s1 sep).
Qed.

Lemma deepInsert_total (keys : list string) :
  ∀ nodes d, keys ≠ [] → is_Some (deepInsert nodes keys d).
Proof.
  induction keys as [|k rest IH]; intros nodes d Hne; [done|].
  simpl. destruct rest as [|k1 rest]; [by eexists|].
  destruct (IH (Nodes (match nodes !! k with
                       | Some found => found
                       | None => mkNode k None false ∅ end)) d) as [c Hc]; [done|].
  rewrite Hc. by eexists.
Qed.

Lemma Insert_total (g : Graph) (d : Dep) : is_Some (Insert g d).
Proof.
  unfold Insert. destruct (Split_cons (Import d) slash) as (h & t & ->).
  destruct (deepInsert_total (h :: t) (Roots g) d) as [n ->]; [done|].
  by eexists.
Qed.

Lemma inserts_total (ds : list Dep) : ∀ g, is_Some (inserts g ds).
Proof.
  induction ds as [|d ds IH]; intros g; simpl; [by eexists|].
  destruct (Insert_total g d) as [g' ->]. apply IH.
Qed.

Lemma inserts_app (ds1 ds2 : list Dep) (g : Graph) :
  inserts g (ds1 ++ ds2) = inserts g ds1 ≫= λ g', inserts g' ds2.
Proof.
  revert g. induction ds1 as [|d ds1 IH]; intros g; simpl; [done|].
  destruct (Insert g d); simpl; [apply IH|done].
Qed.

Lemma node_at_empty (p : list string) : node_at ∅ p = None.
Proof. destruct p; simpl; [done|]. by rewrite lookup_empty. Qed.

(** The flags along and off the inserted path, after [deepInsert] and the
    caller's assignment. *)
Lemma flags_at_deepInsert (keys : list string) :
  ∀ nodes d n' k0 p,
    head keys = Some k0 →
    deepInsert nodes keys d = Some n' →
    flags_at (<[k0 := n']> nodes) p
    = if decide (p = keys) then Some (true, Some d)
      else if decide (p `prefix_of` keys ∧ p ≠ [])
           then Some (default (false, None) (flags_at nodes p))
           else flags_at nodes p.
Proof.
  induction keys as [|k rest IH]; intros nodes d n' k0 p Hhd Hins; [done|].
  simpl in Hhd. assert (k0 = k) as -> by congruence. clear Hhd. simpl in Hins.
  set (node := match nodes !! k with
               | Some found => found
               | None => mkNode k None false ∅ end) in *.
  assert (Hold : ∀ q, q ≠ [] → flags_at nodes (k :: q) = flags_at (Nodes node) q).
  { intros q Hq. unfold flags_at, node. simpl.
    destruct (nodes !! k) as [found|]; simpl.
    - by destruct q.
    - by rewrite node_at_empty. }
  assert (Hroot : flags_at nodes [k] = flags <$> nodes !! k).
  { unfold flags_at. simpl. by destruct (nodes !! k). }
  destruct p as [|k' q].
  { rewrite decide_False by done.
    rewrite decide_False by (by intros [_ ?]). done. }
  destruct (decide (k' = k)) as [->|Hk]; last first.
  { unfold flags_at at 1. simpl. rewrite lookup_insert_ne by done.
    rewrite decide_False by congruence.
    rewrite decide_False; [done|].
    intros [Hp _]. by apply prefix_cons_inv_1 in Hp. }
  destruct rest as [|k1 rest].
  - injection Hins as <-.
    destruct q as [|k2 q].
    + rewrite decide_True by done. unfold flags_at. simpl.
      by rewrite lookup_insert_eq.
    + rewrite decide_False by done.
      rewrite decide_False; last first.
      { intros [Hp _]. apply prefix_cons_inv_2 in Hp.
        by apply prefix_nil_not in Hp. }
      rewrite Hold by done. unfold flags_at. simpl.
      by rewrite lookup_insert_eq.
  - destruct (deepInsert (Nodes node) (k1 :: rest) d) as [child|] eqn:Hchild;
      [|done].
    injection Hins as <-.
    destruct q as [|k2 q].
    + rewrite decide_False by done.
      rewrite decide_True; last first.
      { split; [|done]. apply prefix_cons, prefix_nil. }
      rewrite Hroot. unfold flags_at. simpl. rewrite lookup_insert_eq.
      unfold node. by destruct (nodes !! k).
    + specialize (IH (Nodes node) d child k1 (k2 :: q) eq_refl Hchild).
      rewrite Hold by done.
      assert (Hnew : flags_at (<[k := mkNode (Key node) (Dependency node)
                 (Leaf node) (<[k1 := child]> (Nodes node))]> nodes) (k :: k2 :: q)
               = flags_at (<[k1 := child]> (Nodes node)) (k2 :: q)).
      { unfold flags_at. simpl. by rewrite lookup_insert_eq. }
      rewrite Hnew, IH.
      repeat case_decide; try done; exfalso.
      all: repeat match goal with
           | H : _ ∧ _ |- _ => destruct H
           | H : ¬ (_ ∧ _) |- _ => apply H; split; [|done]
           | H : _ :: _ = _ :: _ |- _ => injection H as ??; subst
           | H : ?x :: _ `prefix_of` ?x :: _ |- _ => apply prefix_cons_inv_2 in H
           end; try done; try congruence.
      all: try by apply prefix_cons.
Qed.

Lemma flags_at_Insert (g g' : Graph) (d : Dep) (p : list string) :
  Insert g d = Some g' →
  flags_at (Roots g') p
  = if decide (p = segments d) then Some (true, Some d)
    else if decide (p `prefix_of` segments d ∧ p ≠ [])
         then Some (default (false, None) (flags_at (Roots g) p))
         else flags_at (Roots g) p.
Proof.
  unfold Insert, segments.
  destruct (Split_cons (Import d) slash) as (h & t & ->).
  destruct (deepInsert (Roots g) (h :: t) d) as [n'|] eqn:Hins; [|done].
  intros [= <-]. simpl. by apply flags_at_deepInsert.
Qed.

Lemma is_leaf_Insert (g g' : Graph) (d : Dep) (p : list string) :
  Insert g d = Some g' →
  is_leaf g' p ↔ is_leaf g p ∨ p = segments d.
Proof.
  intros Hins. unfold is_leaf. rewrite (flags_at_Insert _ _ _ _ Hins).
  repeat case_decide; simpl.
  - naive_solver.
  - destruct (flags_at (Roots g) p) as [[[] ?]|]; simpl; naive_solver.
  - naive_solver.
Qed.

Lemma is_leaf_inserts (ds : list Dep) :
  ∀ g g' p, inserts g ds = Some g' →
    is_leaf g' p ↔ is_leaf g p ∨ ∃ e, e ∈ ds ∧ p = segments e.
Proof.
  induction ds as [|d ds IH]; intros g g' p Hins; simpl in Hins.
  - injection Hins as <-. split; [by left|]. intros [?|(e & He & _)]; [done|].
    by apply not_elem_of_nil in He.
  - destruct (Insert g d) as [g1|] eqn:H1; [|done].
    rewrite (IH _ _ _ Hins), (is_leaf_Insert _ _ _ _ H1).
    setoid_rewrite elem_of_cons. naive_solver.
Qed.

Lemma is_leaf_NewGraph (p : list string) : ¬ is_leaf NewGraph p.
Proof. unfold is_leaf, flags_at. simpl. by rewrite node_at_empty. Qed.

(** Inserting under other identifiers leaves the flags of a node alone. *)
Lemma flags_at_inserts_other (ds : list Dep) :
  ∀ g g' p f,
    flags_at (Roots g) p = Some f →
    (∀ e, e ∈ ds → segments e ≠ p) →
    inserts g ds = Some g' →
    flags_at (Roots g') p = Some f.
Proof.
  induction ds as [|d ds IH]; intros g g' p f Hf Hne Hins; simpl in Hins.
  - by injection Hins as <-.
  - destruct (Insert g d) as [g1|] eqn:H1; [|done].
    apply (IH g1 g' p f); [|set_solver|done].
    rewrite (flags_at_Insert _ _ _ _ H1).
    rewrite decide_False; last first.
    { intros ->. apply (Hne d); [apply elem_of_cons; by left|done]. }
    case_decide; [|done]. by rewrite Hf.
Qed.

(** [walk] stops at the first leaf of the path and ignores what follows. *)
Lemma walk_first_leaf (keys : list string) :
  ∀ nodes n rest,
    node_at nodes keys = Some n →
    Leaf n = true →
    (∀ q m, strict_prefix q keys → node_at nodes q = Some m → Leaf m = false) →
    walk nodes (keys ++ rest) = Some n.
Proof.
  induction keys as [|k keys IH]; intros nodes n rest Hat Hleaf Hnone; [done|].
  simpl in *. destruct (nodes !! k) as [m|] eqn:Hk; [|done].
  destruct keys as [|k1 keys].
  - injection Hat as ->. by rewrite Hleaf.
  - rewrite (Hnone [k] m); last by simpl; rewrite Hk.
    + apply IH; [done..|].
      intros q m' [Hpre Hneq] Hq. apply (Hnone (k :: q) m').
      * split; [by apply prefix_cons|congruence].
      * simpl. rewrite Hk. destruct q; [done|]. done.
    + split; [apply prefix_cons, prefix_nil|done].
Qed.

(** [walk] gives up at the first key that has no node, when no leaf
    came before it. *)
Lemma walk_absent (pre : list string) :
  ∀ nodes k post,
    (∀ q, q ≠ [] → q `prefix_of` pre →
          ∃ m, node_at nodes q = Some m ∧ Leaf m = false) →
    node_at nodes (pre ++ [k]) = None →
    walk nodes (pre ++ k :: post) = None.
Proof.
  induction pre as [|k0 pre IH]; intros nodes k post Hpre Habs; simpl in *.
  - by destruct (nodes !! k).
  - destruct (Hpre [k0]) as (m & Hm & Hleaf);
      [done|apply prefix_cons, prefix_nil|].
    simpl in Hm. destruct (nodes !! k0) as [m0|] eqn:Hk0; [|done].
    injection Hm as ->. rewrite Hleaf.
    apply IH.
    + intros q Hq Hqp. destruct (Hpre (k0 :: q)) as (m' & Hm' & Hl');
        [done|by apply prefix_cons|].
      simpl in Hm'. rewrite Hk0 in Hm'. destruct q; [done|]. eauto.
    + destruct (pre ++ [k]) eqn:E; [by destruct pre|]. done.
Qed.

Lemma node_at_flags (nodes : gmap string Node) (p : list string) f :
  flags_at nodes p = Some f →
  ∃ n, node_at nodes p = Some n ∧ Leaf n = f.1 ∧ Dependency n = f.2.
Proof.
  unfold flags_at. destruct (node_at nodes p) as [n|]; [|done].
  intros [= <-]. by exists n.
Qed.

(** *** Shape and leaf count under an update that keeps a node's shape *)

Lemma shape_insert_same (m : gmap string Node) (k : string) (old new : Node) :
  m !! k = Some old → shape new = shape old →
  shape <$> <[k := new]> m = shape <$> m.
Proof.
  intros Hk Hs. rewrite fmap_insert, Hs.
  apply insert_id. by rewrite lookup_fmap, Hk.
Qed.

Lemma leaves_insert_same (m : gmap string Node) (k : string) (old new : Node) :
  m !! k = Some old → leaves new = leaves old →
  map_fold (λ _ child acc, leaves child + acc) 0 (<[k := new]> m)
  = map_fold (λ _ child acc, leaves child + acc) 0 m.
Proof.
  intros Hk Hl.
  rewrite <-(insert_delete_id m k old) at 2 by done.
  rewrite <-(insert_delete_eq m k new).
  rewrite !map_fold_insert_L; try (by rewrite lookup_delete_eq);
    try (intros; lia).
Qed.

(** Re-inserting along a path that already ends in a leaf. *)
Lemma deepInsert_again (keys : list string) :
  ∀ nodes d k0 n,
    head keys = Some k0 →
    node_at nodes keys = Some n →
    Leaf n = true →
    ∃ old new,
      nodes !! k0 = Some old ∧
      deepInsert nodes keys d = Some new ∧
      shape new = shape old ∧
      leaves new = leaves old.
Proof.
  induction keys as [|k rest IH]; intros nodes d k0 n Hhd Hat Hleaf; [done|].
  simpl in Hhd. assert (k0 = k) as -> by congruence. clear Hhd.
  simpl in *. destruct (nodes !! k) as [old|] eqn:Hk; [|done].
  exists old. destruct rest as [|k1 rest].
  - injection Hat as ->. eexists. split_and!; [done..| |].
    + destruct n; simpl in *. by subst.
    + destruct n; simpl in *. by subst.
  - destruct (IH (Nodes old) d k1 n eq_refl Hat Hleaf)
      as (c & c' & Hc & -> & Hs & Hl).
    eexists. split_and!; [done..| |].
    + destruct old; simpl in *. f_equal. by eapply shape_insert_same.
    + destruct old; simpl in *. f_equal. by eapply leaves_insert_same.
Qed.

Lemma node_at_prefix (keys : list string) :
  ∀ nodes n p,
    node_at nodes keys = Some n → p `prefix_of` keys → p ≠ [] →
    is_Some (node_at nodes p).
Proof.
  induction keys as [|k keys IH]; intros nodes n p Hat Hp Hne; [done|].
  destruct p as [|k' p]; [done|].
  pose proof (prefix_cons_inv_1 _ _ _ _ Hp) as ->.
  apply prefix_cons_inv_2 in Hp.
  simpl in *. destruct (nodes !! k) as [m|]; [|done].
  destruct p as [|k1 p]; [by eexists|].
  destruct keys as [|k2 keys]; [by apply prefix_nil_not in Hp|].
  by apply (IH (Nodes m) n).
Qed.

Lemma leaf_inv_Insert (g g' : Graph) (d : Dep) :
  leaf_inv g → Insert g d = Some g' → leaf_inv g'.
Proof.
  intros Hinv Hins p f. rewrite (flags_at_Insert _ _ _ _ Hins).
  repeat case_decide.
  - by intros [= <-].
  - destruct (flags_at (Roots g) p) as [f0|] eqn:Hf0; simpl.
    + intros [= <-]. by apply (Hinv p).
    + by intros [= <-].
  - apply Hinv.
Qed.

Lemma leaf_inv_inserts (ds : list Dep) :
  ∀ g g', leaf_inv g → inserts g ds = Some g' → leaf_inv g'.
Proof.
  induction ds as [|d ds IH]; intros g g' Hinv Hins; simpl in Hins.
  - by injection Hins as <-.
  - destruct (Insert g d) as [g1|] eqn:H1; [|done].
    eapply IH; [|done]. by eapply leaf_inv_Insert.
Qed.

(** The dependency of the last insertion under an identifier stays at
    its leaf; no strict prefix that was never inserted becomes a leaf. *)
Lemma leaf_of_inserted (before after : list Dep) (d : Dep) :
  Forall (λ e, ¬ strict_prefix (segments e) (segments d)) (before ++ after) →
  Forall (λ e, segments e ≠ segments d) after →
  ∃ g n,
    inserts NewGraph (before ++ d :: after) = Some g ∧
    node_at (Roots g) (segments d) = Some n ∧
    Leaf n = true ∧ Dependency n = Some d ∧
    (∀ q m, strict_prefix q (segments d) →
            node_at (Roots g) q = Some m → Leaf m = false).
Proof.
  intros Hpre Hlast.
  destruct (inserts_total before NewGraph) as [g0 H0].
  destruct (Insert_total g0 d) as [g1 H1].
  destruct (inserts_total after g1) as [g2 H2].
  assert (Hall : inserts NewGraph (before ++ d :: after) = Some g2).
  { rewrite inserts_app, H0. simpl. by rewrite H1. }
  assert (Hf1 : flags_at (Roots g1) (segments d) = Some (true, Some d)).
  { rewrite (flags_at_Insert _ _ _ _ H1). by rewrite decide_True. }
  assert (Hf2 : flags_at (Roots g2) (segments d) = Some (true, Some d)).
  { eapply flags_at_inserts_other; [done| |done].
    intros e He. by apply (proj1 (Forall_forall _ _) Hlast). }
  destruct (node_at_flags _ _ _ Hf2) as (n & Hn & Hleaf & Hdep).
  exists g2, n. split_and!; [done..|].
  intros q m Hq Hm. destruct (Leaf m) eqn:Hlm; [exfalso|done].
  assert (Hql : is_leaf g2 q).
  { unfold is_leaf, flags_at. rewrite Hm. simpl. by rewrite Hlm. }
  apply (is_leaf_inserts _ _ _ _ Hall) in Hql as [Hql|(e & He & ->)].
  - by apply is_leaf_NewGraph in Hql.
  - apply elem_of_app in He as [He|He].
    + eapply (proj1 (Forall_forall _ _) Hpre e); [|done]. set_solver.
    + apply elem_of_cons in He as [->|He]; [by destruct Hq|].
      eapply (proj1 (Forall_forall _ _) Hpre e); [|done]. set_solver.
Qed.

(** *** C1: Search after Insert *)

(** C1, as amended.  A Dep inserted under identifier I is what a later
    Search(I) returns, whatever else is inserted before or after, provided
    that no other inserted identifier is a strict segment prefix of I and
    that I is not inserted again afterwards: Search stops at the first leaf
    on the walk, and a re-insertion overwrites the leaf. *)
Theorem Search_after_Insert (before after : list Dep) (d : Dep) :
  Forall (λ e, ¬ strict_prefix (segments e) (segments d)) (before ++ after) →
  Forall (λ e, segments e ≠ segments d) after →
  ∃ g, inserts NewGraph (before ++ d :: after) = Some g ∧
       finds g (Import d) d.
Proof.
  intros Hpre Hlast.
  destruct (leaf_of_inserted before after d Hpre Hlast)
    as (g & n & Hg & Hn & Hleaf & Hdep & Hfirst).
  exists g. split; [done|]. exists n. split_and!; [|done..].
  unfold Search. fold (segments d).
  rewrite <-(app_nil_r (segments d)). by apply walk_first_leaf.
Qed.

Lemma Search_after_Insert_witness :
  ∃ g, inserts NewGraph
         ([NewDependency "example.org/x"] ++ NewDependency "example.org/foo"
            :: [NewDependency "example.org/foo/bar"]) = Some g ∧
       finds g "example.org/foo" (NewDependency "example.org/foo").
Proof.
  apply (Search_after_Insert [NewDependency "example.org/x"]
           [NewDependency "example.org/foo/bar"]
           (NewDependency "example.org/foo")).
  - apply (bool_decide_unpack _). vm_compute. reflexivity.
  - apply (bool_decide_unpack _). vm_compute. reflexivity.
Defined.

(** C1, as stated, fails: with "a" inserted first, Search("a/b") stops at
    the leaf of "a" and answers with its Dep, not with the Dep inserted
    under "a/b". *)
Lemma Search_after_Insert_counterexample :
  ∃ g n, inserts NewGraph [NewDependency "a"; NewDependency "a/b"] = Some g ∧
         Search g "a/b" = Some n ∧
         Dependency n = Some (NewDependency "a") ∧
         ¬ finds g "a/b" (NewDependency "a/b").
Proof.
  eexists _, _. split_and!.
  - vm_compute. reflexivity.
  - vm_compute. reflexivity.
  - reflexivity.
  - intros (n & Hn & _ & Hdep). vm_compute in Hn. injection Hn as <-.
    discriminate Hdep.
Qed.

(** *** C6: sub-paths of a leaf, and absent segments *)

(** C6, as amended.  For every strict descendant path I2 of an inserted
    identifier I1, Search(I2) returns the Dep held at I1's leaf, provided
    that no other inserted identifier is a strict segment prefix of I1 (the
    walk stops at the first leaf it reaches) and that I1's Dep is the last
    one inserted under I1; and a query with a segment that is absent before
    any leaf is reached returns nothing. *)
Theorem Search_descendant (before after : list Dep) (d1 : Dep) (tail : string) :
  Forall (λ e, ¬ strict_prefix (segments e) (segments d1)) (before ++ after) →
  Forall (λ e, segments e ≠ segments d1) after →
  ∃ g, inserts NewGraph (before ++ d1 :: after) = Some g ∧
       finds g (Import d1 +:+ "/" +:+ tail) d1 ∧
       (∀ I pre k post,
          Split I slash = pre ++ k :: post →
          (∀ q, q ≠ [] → q `prefix_of` pre →
                ∃ m, node_at (Roots g) q = Some m ∧ Leaf m = false) →
          node_at (Roots g) (pre ++ [k]) = None →
          Search g I = None).
Proof.
  intros Hpre Hlast.
  destruct (leaf_of_inserted before after d1 Hpre Hlast)
    as (g & n & Hg & Hn & Hleaf & Hdep & Hfirst).
  exists g. split_and!; [done| |].
  - exists n. split_and!; [|done..].
    unfold Search. change ("/" +:+ tail) with (String slash tail).
    rewrite Split_app. by apply walk_first_leaf.
  - intros I pre k post HI Hinner Habs. unfold Search. rewrite HI.
    by apply walk_absent.
Qed.

Lemma Search_descendant_witness :
  ∃ g, inserts NewGraph
         ([NewDependency "x"] ++ NewDependency "a/b" :: []) = Some g ∧
       finds g ("a/b" +:+ "/" +:+ "c") (NewDependency "a/b") ∧
       Search g "y/z" = None.
Proof.
  destruct (Search_descendant [NewDependency "x"] [] (NewDependency "a/b") "c")
    as (g & Hg & Hfind & Habs).
  - apply (bool_decide_unpack _). vm_compute. reflexivity.
  - apply (bool_decide_unpack _). vm_compute. reflexivity.
  - exists g. split_and!; [done..|].
    apply (Habs "y/z" [] "y" ["z"]); [reflexivity|by intros [|??] ? ?%prefix_nil_inv|].
    revert Hg. vm_compute. by intros [= <-].
Defined.

(** C6, as stated, fails: "a/b" is an inserted leaf and "a/b/c" a strict
    descendant of it, yet with "a" inserted too, Search("a/b/c") stops at
    the leaf of "a" and returns the Dep of "a". *)
Lemma Search_descendant_counterexample :
  ∃ g n1 n,
    inserts NewGraph [NewDependency "a"; NewDependency "a/b"] = Some g ∧
    node_at (Roots g) (Split "a/b" slash) = Some n1 ∧
    Leaf n1 = true ∧ Dependency n1 = Some (NewDependency "a/b") ∧
    Search g "a/b/c" = Some n ∧
    Dependency n = Some (NewDependency "a") ∧
    ¬ finds g "a/b/c" (NewDependency "a/b").
Proof.
  eexists _, _, _. split_and!.
  - vm_compute. reflexivity.
  - vm_compute. reflexivity.
  - reflexivity.
  - reflexivity.
  - vm_compute. reflexivity.
  - reflexivity.
  - intros (n & Hn & _ & Hdep). vm_compute in Hn. injection Hn as <-.
    discriminate Hdep.
Qed.

(** *** C7: re-insertion *)

(** C7.  Re-inserting an identifier that was inserted before, with another
    Dep, puts that Dep at the identifier's leaf and changes nothing else:
    the trie with its dependencies blanked (its nodes, their keys, leaf
    flags and child maps) is the same, the leaf count is the same, and the
    flags and dependency of every other node are the same. *)
Theorem reinsert_keeps_shape (before after : list Dep) (d d' : Dep) :
  Import d' = Import d →
  ∃ g g',
    inserts NewGraph (before ++ d :: after) = Some g ∧
    Insert g d' = Some g' ∧
    graph_shape g' = graph_shape g ∧
    leaf_count g' = leaf_count g ∧
    (∃ n', node_at (Roots g') (segments d') = Some n' ∧
           Leaf n' = true ∧ Dependency n' = Some d') ∧
    (∀ p, p ≠ segments d' → flags_at (Roots g') p = flags_at (Roots g) p).
Proof.
  intros Hsame.
  destruct (inserts_total (before ++ d :: after) NewGraph) as [g Hg].
  assert (Hleaf : is_leaf g (segments d')).
  { apply (is_leaf_inserts _ _ _ _ Hg). right. exists d.
    split; [set_solver|]. unfold segments. by rewrite Hsame. }
  unfold is_leaf in Hleaf.
  destruct (flags_at (Roots g) (segments d')) as [[l dep]|] eqn:Hfl; [|done].
  simpl in Hleaf. injection Hleaf as ->.
  destruct (node_at_flags _ _ _ Hfl) as (n & Hn & Hl & _). simpl in Hl.
  destruct (segments d') as [|k0 rest] eqn:Hkeys; [done|].
  destruct (deepInsert_again (k0 :: rest) (Roots g) d' k0 n eq_refl Hn Hl)
    as (old & new & Hold & Hnew & Hshape & Hleaves).
  assert (Hg' : Insert g d' = Some (mkGraph (<[k0:=new]> (Roots g)))).
  { unfold Insert. fold (segments d'). by rewrite Hkeys, Hnew. }
  exists g, (mkGraph (<[k0:=new]> (Roots g))).
  split_and!; [done|done| | | |].
  - unfold graph_shape. simpl. by eapply shape_insert_same.
  - unfold leaf_count. simpl. by eapply leaves_insert_same.
  - assert (Hf : flags_at (<[k0:=new]> (Roots g)) (k0 :: rest)
                 = Some (true, Some d')).
    { pose proof (flags_at_Insert _ _ _ (k0 :: rest) Hg') as HF.
      cbn [Roots] in HF. rewrite HF, Hkeys. by rewrite decide_True. }
    destruct (node_at_flags _ _ _ Hf) as (n' & Hn' & ? & ?). by exists n'.
  - intros p Hp.
    pose proof (flags_at_Insert _ _ _ p Hg') as HF.
    cbn [Roots] in *. rewrite HF, Hkeys.
    rewrite decide_False by done. clear HF. case_decide as Hpre; [|done].
    destruct Hpre as [Hpre Hne].
    destruct (node_at_prefix _ _ _ _ Hn Hpre Hne) as [m Hm].
    unfold flags_at. by rewrite Hm.
Qed.

Lemma reinsert_keeps_shape_witness :
  ∃ g g',
    inserts NewGraph ([NewDependency "a/b"] ++ NewDependency "a/c" :: []) = Some g ∧
    Insert g (mkDep "a/c" "git" "" TagFlag "v1" false) = Some g' ∧
    graph_shape g' = graph_shape g ∧
    leaf_count g' = leaf_count g ∧
    (∃ n', node_at (Roots g') (segments (mkDep "a/c" "git" "" TagFlag "v1" false))
             = Some n' ∧
           Leaf n' = true ∧
           Dependency n' = Some (mkDep "a/c" "git" "" TagFlag "v1" false)) ∧
    (∀ p, p ≠ segments (mkDep "a/c" "git" "" TagFlag "v1" false) →
          flags_at (Roots g') p = flags_at (Roots g) p).
Proof.
  apply (reinsert_keeps_shape [NewDependency "a/b"] [] (NewDependency "a/c")
           (mkDep "a/c" "git" "" TagFlag "v1" false)).
  reflexivity.
Defined.

(** *** C9: the leaf invariant *)

(** C9.  After any sequence of Insert operations on a new graph, which
    never panics, every node of the trie has its Leaf flag set if and only
    if it holds a Dependency. *)
Theorem leaf_iff_dependency (ds : list Dep) :
  ∃ g, inserts NewGraph ds = Some g ∧
       ∀ p n, node_at (Roots g) p = Some n →
              (Leaf n = true ↔ Dependency n ≠ None).
Proof.
  destruct (inserts_total ds NewGraph) as [g Hg]. exists g. split; [done|].
  intros p n Hn.
  assert (Hinv : leaf_inv g).
  { eapply leaf_inv_inserts; [|done].
    intros q f. unfold flags_at. simpl. by rewrite node_at_empty. }
  apply (Hinv p (flags n)). unfold flags_at. by rewrite Hn.
Qed.

Lemma leaf_iff_dependency_witness :
  ∃ g, inserts NewGraph [NewDependency "a/b"; NewDependency "a"] = Some g ∧
       ∀ p n, node_at (Roots g) p = Some n →
              (Leaf n = true ↔ Dependency n ≠ None).
Proof. apply (leaf_iff_dependency [NewDependency "a/b"; NewDependency "a"]). Defined.

End GraphFacts.

(** ** The world: what a run can and cannot change *)

Module Frame.

Lemma bind_Return {A B} (m : M A) (k : A → M B) w b w' :
  bind m k w = (Return b, w') ↔
  ∃ a w1, m w = (Return a, w1) ∧ k a w1 = (Return b, w').
Proof.
  unfold bind. destruct (m w) as [[a|c| |] w1]; split.
  - intros H. by exists a, w1.
  - by intros (? & ? & [= -> ->] & ?).
  - intros [=].
  - intros (? & ? & [=] & _).
  - intros [=].
  - intros (? & ? & [=] & _).
  - intros [=].
  - intros (? & ? & [=] & _).
Qed.

Section obeyed.
Context (R : relation World) `{!PreOrder R} (E : Z → Prop).
Context (ok : Event → Prop).
Hypothesis E_one : E 1.
Hypothesis R_emit : ∀ e, ok e → obeys R E (emit e).
Hypothesis ok_print : ∀ text, ok (EvPrint text).
Hypothesis ok_invalid : ∀ i, ok (EvValidate i false).
Hypothesis ok_symlink : ∀ r, ok (EvSymlink r).
Hypothesis R_graph : ∀ g, obeys R E (set_graph g).
Hypothesis R_fetch :
  ∀ d b, obeys R E (emit (EvValidate (Import d) true) ;;; Fetch d b).

Lemma obeys_bind {A B} (m : M A) (k : A → M B) :
  obeys R E m → (∀ a, obeys R E (k a)) → obeys R E (bind m k).
Proof.
  intros Hm Hk w. unfold bind. destruct (Hm w) as [HR HE].
  destruct (m w) as [[a|c| |] w1]; simpl in *; try (by split).
  - destruct (Hk a w1) as [HR' HE']. split; [by etrans|done].
  - split; [done|]. intros c0 [= <-]. by apply HE.
Qed.

Lemma obeys_ext {A} (m m' : M A) :
  (∀ w, m w = m' w) → obeys R E m → obeys R E m'.
Proof. intros Heq Hm w. rewrite <-Heq. apply Hm. Qed.

Lemma obeys_ret {A} (a : A) : obeys R E (ret a).
Proof. by intros w. Qed.
Lemma obeys_exit {A} : obeys R E (@exit A 1).
Proof. intros w. split; [done|]. by intros c [= <-]. Qed.
Lemma obeys_panic {A} : obeys R E (@panic A).
Proof. by intros w. Qed.
Lemma obeys_out_of_fuel {A} : obeys R E (@out_of_fuel A).
Proof. by intros w. Qed.
Lemma obeys_ask {A} (f : World → A) : obeys R E (ask f).
Proof. by intros w. Qed.

(** The retrieval of [Fetch] comes right after the validation of the
    same Dep. *)
Lemma obeys_validated_fetch {B} (d : Dep) (b : bool) (k : Dep → M B) :
  (∀ d', obeys R E (k d')) →
  obeys R E (emit (EvValidate (Import d) true) ;;; d' <- Fetch d b ;; k d').
Proof.
  intros Hk.
  apply (obeys_ext
           (d' <- (emit (EvValidate (Import d) true) ;;; Fetch d b) ;; k d')).
  - intros w. unfold bind.
    by destruct (emit (EvValidate (Import d) true) w) as [[[]|?| |] ?].
  - by apply obeys_bind.
Qed.

Ltac step :=
  match goal with
  | |- obeys _ _ (bind (emit (EvValidate _ true)) _) =>
      apply obeys_validated_fetch; intros
  | |- obeys _ _ (bind _ _) => apply obeys_bind; [|intros]
  | |- obeys _ _ (ret _) => apply obeys_ret
  | |- obeys _ _ (exit 1) => apply obeys_exit
  | |- obeys _ _ panic => apply obeys_panic
  | |- obeys _ _ out_of_fuel => apply obeys_out_of_fuel
  | |- obeys _ _ (ask _) => apply obeys_ask
  | |- obeys _ _ (emit _) => apply R_emit; by auto
  | |- obeys _ _ (set_graph _) => apply R_graph
  | |- obeys _ _ (let _ := _ in _) => cbv zeta
  | |- obeys _ _ (match ?x with _ => _ end) => destruct x
  | H : ∀ _, obeys _ _ _ |- _ => apply H
  | H : obeys _ _ _ |- _ => apply H
  end.
Ltac steps := repeat step.

Lemma obeys_as_string v : obeys R E (as_string v).
Proof. unfold as_string. steps. Qed.
Lemma obeys_as_tree v : obeys R E (as_tree v).
Proof. unfold as_tree. steps. Qed.
Lemma obeys_fmtcolor t : obeys R E (fmtcolor t).
Proof. unfold fmtcolor. steps. Qed.
Lemma obeys_failf {A} t : obeys R E (@failf A t).
Proof. unfold failf, fmtcolor. steps. Qed.
Lemma obeys_fail {A} t : obeys R E (@fail A t).
Proof. unfold fail. steps. Qed.
Lemma obeys_print_errors es : obeys R E (print_errors es).
Proof. induction es; simpl; steps. Qed.
Lemma obeys_NewConfig dir : obeys R E (NewConfig dir).
Proof.
  unfold NewConfig, LoadFile.
  steps; try apply obeys_fail; try apply obeys_as_tree;
    try apply obeys_as_string.
Qed.
Lemma obeys_graph_Insert d : obeys R E (graph_Insert d).
Proof. unfold graph_Insert. steps. Qed.
Lemma obeys_InitRepo c : obeys R E (InitRepo c).
Proof.
  unfold InitRepo. steps; try apply obeys_fail;
    try apply obeys_graph_Insert.
Qed.
Lemma obeys_checksum c : obeys R E (checksum c).
Proof. unfold checksum. steps; try apply obeys_fail. Qed.
Lemma obeys_modifiedChecksum c : obeys R E (modifiedChecksum c).
Proof. unfold modifiedChecksum. steps; try apply obeys_checksum. Qed.
Lemma obeys_store {A} (l : list A) pos x : obeys R E (store l pos x).
Proof. unfold store. steps. Qed.

Lemma obeys_addDepsTree_loop keys :
  ∀ deps t modified pos,
    obeys R E (addDepsTree_loop deps t keys modified pos).
Proof.
  induction keys as [|k keys IH]; intros; simpl; steps;
    try apply IH; try apply obeys_as_tree; try apply obeys_as_string;
    try apply obeys_store; try apply obeys_graph_Insert.
Qed.
Lemma obeys_addDepsTree deps t modified pos :
  obeys R E (addDepsTree deps t modified pos).
Proof. unfold addDepsTree. steps; try apply obeys_addDepsTree_loop. Qed.
Lemma obeys_LoadDependencyModel c : obeys R E (LoadDependencyModel c).
Proof.
  unfold LoadDependencyModel, Keys_of.
  steps; try apply obeys_modifiedChecksum; try apply obeys_addDepsTree.
Qed.
Lemma obeys_LoadTransitiveDeps d : obeys R E (LoadTransitiveDeps d).
Proof.
  unfold LoadTransitiveDeps.
  steps; try apply obeys_NewConfig; try apply obeys_LoadDependencyModel.
Qed.
Hypothesis ok_update : ∀ i, ok (EvUpdate i).
Hypothesis ok_checkout : ∀ i k spec, ok (EvCheckout i k spec).

Lemma obeys_Dep_Get d : obeys R E (Dep_Get d).
Proof. unfold Dep_Get. steps. Qed.
Lemma obeys_switchToBranchOrTag d : obeys R E (switchToBranchOrTag d).
Proof. unfold switchToBranchOrTag. steps. Qed.
Lemma obeys_visit l fn :
  (∀ d, obeys R E (fn d)) → obeys R E (visit l fn).
Proof. intros Hfn. induction l; simpl; steps. Qed.
Lemma obeys_routine recurse dep :
  (∀ t, obeys R E (recurse t)) → obeys R E (routine recurse dep).
Proof.
  intros Hrec. unfold routine.
  steps; try apply obeys_fmtcolor; try apply obeys_Dep_Get;
    try apply obeys_switchToBranchOrTag;
    try apply obeys_LoadTransitiveDeps; try apply obeys_failf.
Qed.
Lemma obeys_loadTransitiveDependencies fuel :
  ∀ deps, obeys R E (loadTransitiveDependencies fuel deps).
Proof.
  induction fuel as [|fuel IH]; intros deps; simpl; [steps|].
  apply obeys_visit. intros d. by apply obeys_routine.
Qed.
Lemma obeys_loadConfiguration dir : obeys R E (loadConfiguration dir).
Proof.
  unfold loadConfiguration.
  steps; try apply obeys_NewConfig; try apply obeys_InitRepo;
    try apply obeys_LoadDependencyModel; try apply obeys_failf.
Qed.

(** With every exit status allowed and the marker free to change, the
    whole of [loadDependencies]. *)
Hypothesis E_all : ∀ c, E c.
Hypothesis R_marker : ∀ f, obeys R E (set_marker f).
Hypothesis ok_write : ∀ sum, ok (EvWriteChecksum sum).

Lemma obeys_failWith es : obeys R E (failWith es).
Proof.
  unfold failWith. steps; try apply obeys_print_errors.
  intros w. split; [done|]. intros; apply E_all.
Qed.
Lemma obeys_WriteChecksum c : obeys R E (WriteChecksum c).
Proof.
  unfold WriteChecksum.
  steps; try apply obeys_checksum; try apply obeys_fail; apply R_marker.
Qed.
End obeyed.

#[global] Instance keeps_preorder {X} (f : World → X) : PreOrder (keeps f).
Proof. split; [by intros ?|]. intros w1 w2 w3. unfold keeps. congruence. Qed.

Ltac crunch :=
  intros w; split; [|done];
  unfold keeps, bind, emit, set_graph, set_marker, Fetch, retrieve, bind, ask,
    add_vendored, exit, ret; simpl;
  repeat (case_match; simplify_eq/=); try done.

(** *** The marker *)

Lemma marker_emit e : obeys (keeps marker) (λ _, True) (emit e).
Proof. crunch. Qed.
Lemma marker_set_graph g : obeys (keeps marker) (λ _, True) (set_graph g).
Proof. crunch. Qed.
Lemma marker_fetch d b :
  obeys (keeps marker) (λ _, True)
        (emit (EvValidate (Import d) true) ;;; Fetch d b).
Proof. crunch. Qed.

Lemma marker_obeys_loadConfiguration dir :
  obeys (keeps marker) (λ _, True) (loadConfiguration dir).
Proof.
  apply obeys_loadConfiguration with (ok := λ _, True);
    auto using marker_emit, marker_set_graph, marker_fetch;
    try apply _.
Qed.
Lemma marker_obeys_failWith es :
  obeys (keeps marker) (λ _, True) (failWith es).
Proof. apply obeys_failWith with (ok := λ _, True); auto using marker_emit;
    try apply _. Qed.
Lemma marker_obeys_loadTransitiveDependencies fuel deps :
  obeys (keeps marker) (λ _, True) (loadTransitiveDependencies fuel deps).
Proof.
  apply obeys_loadTransitiveDependencies with (ok := λ _, True);
    auto using marker_emit, marker_set_graph, marker_fetch;
    try apply _.
Qed.
Lemma marker_obeys_checksum c :
  obeys (keeps marker) (λ _, True) (checksum c).
Proof. apply obeys_checksum with (ok := λ _, True); auto using marker_emit;
    try apply _. Qed.

Lemma marker_loadConfiguration dir w :
  marker (loadConfiguration dir w).2 = marker w.
Proof. apply (proj1 (marker_obeys_loadConfiguration dir w)). Qed.
Lemma marker_failWith es w : marker (failWith es w).2 = marker w.
Proof. apply (proj1 (marker_obeys_failWith es w)). Qed.
Lemma marker_loadTransitiveDependencies fuel deps w :
  marker (loadTransitiveDependencies fuel deps w).2 = marker w.
Proof. apply (proj1 (marker_obeys_loadTransitiveDependencies fuel deps w)). Qed.
Lemma marker_checksum c w : marker (checksum c w).2 = marker w.
Proof. apply (proj1 (marker_obeys_checksum c w)). Qed.

(** *** The declaration files *)

Lemma files_emit e : obeys (keeps files) (λ _, True) (emit e).
Proof. crunch. Qed.
Lemma files_set_graph g : obeys (keeps files) (λ _, True) (set_graph g).
Proof. crunch. Qed.
Lemma files_set_marker f : obeys (keeps files) (λ _, True) (set_marker f).
Proof. crunch. Qed.
Lemma files_fetch d b :
  obeys (keeps files) (λ _, True)
        (emit (EvValidate (Import d) true) ;;; Fetch d b).
Proof. crunch. Qed.

Lemma files_obeys_LoadDependencyModel c :
  obeys (keeps files) (λ _, True) (LoadDependencyModel c).
Proof.
  apply obeys_LoadDependencyModel with (ok := λ _, True);
    auto using files_emit, files_set_graph, files_fetch;
    try apply _.
Qed.
Lemma files_obeys_failWith es :
  obeys (keeps files) (λ _, True) (failWith es).
Proof. apply obeys_failWith with (ok := λ _, True); auto using files_emit;
    try apply _. Qed.
Lemma files_obeys_loadTransitiveDependencies fuel deps :
  obeys (keeps files) (λ _, True) (loadTransitiveDependencies fuel deps).
Proof.
  apply obeys_loadTransitiveDependencies with (ok := λ _, True);
    auto using files_emit, files_set_graph, files_fetch;
    try apply _.
Qed.

Lemma files_LoadDependencyModel c w :
  files (LoadDependencyModel c w).2 = files w.
Proof. apply (proj1 (files_obeys_LoadDependencyModel c w)). Qed.
Lemma files_failWith es w : files (failWith es w).2 = files w.
Proof. apply (proj1 (files_obeys_failWith es w)). Qed.
Lemma files_loadTransitiveDependencies fuel deps w :
  files (loadTransitiveDependencies fuel deps w).2 = files w.
Proof. apply (proj1 (files_obeys_loadTransitiveDependencies fuel deps w)). Qed.

End Frame.

(** ** The checksum gate *)

Module ChecksumFacts.
Import Frame.

(** *** C4: the marker is written last *)

(** C4.  A run of loadDependencies that resolves a set to the end leaves
    the marker holding the checksum it wrote as its last act; every other
    run, whether it stops in loading, validation, fetch, checkout or
    transitive resolution, by exit or by panic, or has no dependencies,
    leaves the marker as it found it. *)
Theorem marker_written_last (fuel : nat) (root : string) (p : ProjectStats)
    (w : World) :
  match loadDependencies fuel root p w with
  | (Return (_, Some _), w') =>
      ∃ sum, marker w' = Content sum ∧
             last (trace w') = Some (EvWriteChecksum sum)
  | (_, w') => marker w' = marker w
  end.
Proof.
  unfold loadDependencies. unfold bind at 1.
  pose proof (marker_loadConfiguration root w) as H1.
  destruct (loadConfiguration root w) as [[[c [deps|]]|?| |] w1];
    simpl in H1; try done.
  unfold bind at 1.
  pose proof (marker_failWith (Dependencies_Validate deps p) w1) as H2.
  destruct (failWith _ w1) as [[[]|?| |] w2]; simpl in H2; try congruence.
  unfold bind at 1.
  pose proof (marker_loadTransitiveDependencies fuel deps w2) as H3.
  destruct (loadTransitiveDependencies fuel deps w2) as [[[]|?| |] w3];
    simpl in H3; try congruence.
  unfold WriteChecksum. unfold bind at 2. unfold bind at 1.
  pose proof (marker_checksum c w3) as H4.
  destruct (checksum c w3) as [[[sum c']|?| |] w4]; simpl in H4;
    try congruence.
  unfold bind, ask, fail, emit, exit, set_marker, ret; simpl.
  destruct (write_fails w4); simpl; [congruence|].
  exists sum. split; [done|]. by rewrite last_snoc.
Qed.

Lemma marker_written_last_witness :
  match loadDependencies 5 "." Scenario.stats
          (Scenario.stale_run Scenario.invalid_second) with
  | (Return (_, Some _), w') =>
      ∃ sum, marker w' = Content sum ∧
             last (trace w') = Some (EvWriteChecksum sum)
  | (_, w') => marker w' = marker (Scenario.stale_run Scenario.invalid_second)
  end.
Proof.
  exact (marker_written_last 5 "." Scenario.stats
           (Scenario.stale_run Scenario.invalid_second)).
Defined.

(** A run that stops at an invalid Dep leaves an older marker as it was. *)
Example stale_marker_kept :
  (loadDependencies 5 "." Scenario.stats
     (Scenario.stale_run Scenario.invalid_second)).1 = Exit 1 ∧
  marker (loadDependencies 5 "." Scenario.stats
            (Scenario.stale_run Scenario.invalid_second)).2 = Content "stale".
Proof. split; vm_compute; reflexivity. Qed.

(** *** C5: the gate *)

Lemma String_eqb_false (a b : string) : String.eqb a b = false ↔ a ≠ b.
Proof. apply String.eqb_neq. Qed.

Lemma checksum_fresh (c : Config) (w : World) (f : DeclFile) :
  files w !! Path c = Some f →
  (∀ s, Checksum c = Some s → s = md5sum f) →
  ∃ c', checksum c w = (Return (EncodeToString (md5sum f), c'), w) ∧
        Path c' = Path c ∧ Checksum c' = Some (md5sum f).
Proof.
  intros Hf Hcache. unfold checksum.
  destruct (Checksum c) as [s|] eqn:Hs.
  - pose proof (Hcache s eq_refl) as ->. exists c. split_and!; [reflexivity|done|done].
  - unfold bind, ask. simpl. rewrite Hf. by eexists.
Qed.

Lemma checksum_Return (c c' : Config) (w w' : World) (sum : string) :
  coherent c w →
  checksum c w = (Return (sum, c'), w') →
  w' = w ∧ Path c' = Path c ∧ coherent c' w ∧
  ∃ f, files w !! Path c = Some f ∧ sum = EncodeToString (md5sum f).
Proof.
  intros Hcoh. unfold checksum.
  destruct (Checksum c) as [s|] eqn:Hs.
  - intros [= Hsum Hc Hw]. subst.
    destruct (Hcoh s Hs) as (f & Hf & ->). split_and!; [done..|by exists f].
  - unfold bind, ask. simpl. destruct (files w !! Path c) as [f|] eqn:Hf.
    + intros [= Hsum Hc Hw]. subst. split_and!; [done..| |by exists f].
      intros s. simpl. intros [= <-]. by exists f.
    + intros [=].
Qed.

Lemma modifiedChecksum_Return (c c' : Config) (w w' : World) (b : bool) :
  coherent c w →
  modifiedChecksum c w = (Return (b, c'), w') →
  w' = w ∧ Path c' = Path c ∧ coherent c' w.
Proof.
  intros Hcoh. unfold modifiedChecksum. unfold bind at 1, ask. simpl.
  destruct (marker w) as [| |bytes]; simpl.
  - by intros [= <- <- <-].
  - intros Hb. apply bind_Return in Hb as ([sum c1] & w1 & Hc & [= <- <- <-]).
    by destruct (checksum_Return _ _ _ _ _ Hcoh Hc) as (-> & ? & ? & _).
  - intros Hb. apply bind_Return in Hb as ([sum c1] & w1 & Hc & [= <- <- <-]).
    by destruct (checksum_Return _ _ _ _ _ Hcoh Hc) as (-> & ? & ? & _).
Qed.

Lemma coherent_files (c : Config) (w w' : World) :
  files w' = files w → coherent c w → coherent c w'.
Proof. intros Hf Hc s Hs. rewrite Hf. by apply Hc. Qed.

Lemma NewConfig_Return (dir : string) (c : Config) (w w' : World) :
  NewConfig dir w = (Return c, w') →
  Path c = Join dir "gopack.config" ∧ Checksum c = None.
Proof.
  unfold NewConfig. intros H.
  apply bind_Return in H as (loaded & w1 & _ & H).
  destruct loaded as [t|]; [|by apply bind_Return in H as (? & ? & _ & [=])].
  apply bind_Return in H as (deps & w2 & _ & H).
  apply bind_Return in H as (dev & w3 & _ & H).
  apply bind_Return in H as (repo & w4 & _ & H).
  by injection H as <- _.
Qed.

Lemma LoadDependencyModel_Return (c c' : Config) deps err (w w' : World) :
  coherent c w →
  LoadDependencyModel c w = (Return (c', deps, err), w') →
  Path c' = Path c ∧ coherent c' w.
Proof.
  intros Hcoh. unfold LoadDependencyModel. case_decide as Hzero.
  { by intros [= <- _ _ _]. }
  intros H.
  apply bind_Return in H as ([modified c1] & w1 & Hm & H).
  destruct (modifiedChecksum_Return _ _ _ _ _ Hcoh Hm) as (-> & HP & Hc1).
  apply bind_Return in H as ([deps1 err1] & w2 & _ & H).
  destruct err1 as [e|]; [by injection H as <- _ _ _|].
  apply bind_Return in H as (keys & w3 & _ & H).
  apply bind_Return in H as ([deps2 err2] & w4 & _ & H).
  destruct err2 as [e|]; by injection H as <- _ _ _.
Qed.

(** After a run that resolved a set, the marker holds the digest of the
    declaration file, in hex. *)
Lemma marker_after_run (fuel : nat) (root : string) (p : ProjectStats)
    (w w' : World) (c : Config) (deps : Dependencies) :
  loadDependencies fuel root p w = (Return (c, Some deps), w') →
  ∃ f, files w' !! Join root "gopack.config" = Some f ∧
       marker w' = Content (EncodeToString (md5sum f)).
Proof.
  unfold loadDependencies. intros H.
  apply bind_Return in H as ([c1 deps1] & w1 & Hconf & H).
  destruct deps1 as [deps1|]; [|by injection H].
  apply bind_Return in H as ([] & w2 & Hval & H).
  apply bind_Return in H as ([] & w3 & Htrans & H).
  apply bind_Return in H as (c2 & w4 & Hwrite & H).
  injection H as <- <- <-.
  (* the configuration that reaches WriteChecksum *)
  unfold loadConfiguration in Hconf.
  apply bind_Return in Hconf as ([] & wa & Hg & Hconf).
  apply bind_Return in Hconf as (c0 & wb & Hnew & Hconf).
  apply bind_Return in Hconf as ([] & wc & Hinit & Hconf).
  apply bind_Return in Hconf as ([[c1' deps'] err] & wd & Hload & Hconf).
  destruct err as [e|].
  { by apply bind_Return in Hconf as (? & ? & _ & [=]). }
  injection Hconf as -> -> ->.
  destruct (NewConfig_Return _ _ _ _ Hnew) as [HP0 HC0].
  assert (Hcoh0 : coherent c0 wc) by (intros s; by rewrite HC0).
  destruct (LoadDependencyModel_Return _ _ _ _ _ _ Hcoh0 Hload) as [HP1 Hcoh1].
  assert (Hf1 : files w1 = files wc).
  { pose proof (files_LoadDependencyModel c0 wc) as Hf. by rewrite Hload in Hf. }
  assert (Hf2 : files w2 = files w1).
  { pose proof (files_failWith (Dependencies_Validate deps1 p) w1) as Hf.
    by rewrite Hval in Hf. }
  assert (Hf3 : files w3 = files w2).
  { pose proof (files_loadTransitiveDependencies fuel deps1 w2) as Hf.
    by rewrite Htrans in Hf. }
  assert (Hcoh3 : coherent c1 w3).
  { apply (coherent_files _ wc); [congruence|done]. }
  unfold WriteChecksum in Hwrite.
  apply bind_Return in Hwrite as ([sum c3] & w5 & Hsum & Hwrite).
  destruct (checksum_Return _ _ _ _ _ Hcoh3 Hsum) as (-> & _ & _ & f & Hf & ->).
  unfold bind, ask in Hwrite. simpl in Hwrite.
  destruct (write_fails w3); [done|]. simpl in Hwrite.
  injection Hwrite as <- <-. simpl. exists f. split; [|done].
  by rewrite <-HP0, <-HP1.
Qed.

(** C5.  [modifiedChecksum] returns true exactly when the marker file does
    not exist or the bytes read from it differ from the hex digest of the
    declaration file; so it is true when there is no marker, and false for
    the configuration of a repeated run, with the declaration file and the
    marker as the run that resolved the set left them. *)
Theorem modifiedChecksum_gate :
  (∀ c w f,
     files w !! Path c = Some f →
     (∀ s, Checksum c = Some s → s = md5sum f) →
     ∃ b c', modifiedChecksum c w = (Return (b, c'), w) ∧
       (b = true ↔ marker w = Missing ∨
                   (ReadFile (marker w)).1 ≠ EncodeToString (md5sum f))) ∧
  (∀ c w, marker w = Missing → modifiedChecksum c w = (Return (true, c), w)) ∧
  (∀ fuel root p w c deps w1 c2 w2,
     loadDependencies fuel root p w = (Return (c, Some deps), w1) →
     files w2 = files w1 → marker w2 = marker w1 →
     NewConfig root w2 = (Return c2, w2) →
     ∃ c2', modifiedChecksum c2 w2 = (Return (false, c2'), w2)).
Proof.
  split_and!.
  - intros c w f Hf Hcache.
    destruct (checksum_fresh c w f Hf Hcache) as (c' & Hsum & _).
    unfold modifiedChecksum. unfold bind at 1, ask. simpl.
    destruct (marker w) as [| |bytes] eqn:Hm; cbn -[String.eqb].
    + exists true, c. split; [done|]. split; [by left|done].
    + unfold bind. rewrite Hsum. eexists _, _. split; [done|].
      rewrite negb_true_iff, String_eqb_false. naive_solver.
    + unfold bind. rewrite Hsum. eexists _, _. split; [done|].
      rewrite negb_true_iff, String_eqb_false. naive_solver.
  - intros c w Hm. unfold modifiedChecksum, bind, ask. simpl. by rewrite Hm.
  - intros fuel root p w c deps w1 c2 w2 Hrun Hfiles Hmarker Hnew.
    destruct (marker_after_run _ _ _ _ _ _ _ Hrun) as (f & Hf & Hm).
    destruct (NewConfig_Return _ _ _ _ Hnew) as [HP HC].
    destruct (checksum_fresh c2 w2 f) as (c' & Hsum & _).
    { by rewrite HP, Hfiles. }
    { intros s. by rewrite HC. }
    unfold modifiedChecksum. unfold bind at 1, ask. simpl.
    rewrite Hmarker, Hm. simpl. unfold bind. rewrite Hsum.
    exists c'. by rewrite String.eqb_refl.
Qed.

Lemma modifiedChecksum_gate_witness :
  ∃ c2',
    modifiedChecksum
      (mkConfig None (Join "." "gopack.config") ""
                (Some [("foo", Scenario.entry [("import", "example.org/foo");
                                               ("branch", "dev")])]) None)
      (loadDependencies 5 "." Scenario.stats
         (Scenario.first_run Scenario.one_dep)).2
    = (Return (false, c2'),
       (loadDependencies 5 "." Scenario.stats
          (Scenario.first_run Scenario.one_dep)).2).
Proof.
  eapply (proj2 (proj2 modifiedChecksum_gate) 5 "." Scenario.stats
            (Scenario.first_run Scenario.one_dep)).
  - vm_compute. reflexivity.
  - reflexivity.
  - reflexivity.
  - vm_compute. reflexivity.
Defined.

End ChecksumFacts.

(** ** Loading the dependency model *)

Module LoadFacts.
Import Frame.

(** *** C10: a declaration with development dependencies only *)

Lemma modifiedChecksum_outcome (c : Config) (w : World) :
  (∃ b c' w', modifiedChecksum c w = (Return (b, c'), w') ∧
               DepsTree c' = DepsTree c ∧ DevDepsTree c' = DevDepsTree c) ∨
  (modifiedChecksum c w).1 = Exit 1.
Proof.
  unfold modifiedChecksum, checksum, fail, bind, ask, emit, exit, ret. simpl.
  repeat (case_match; simplify_eq/=); eauto 10.
Qed.

(** C10 fails on the code.  With no main table and a development table
    that has an entry, LoadDependencyModel does not return: the unguarded
    [c.DepsTree.Keys()] of its second addDepsTree call dereferences nil.
    The only other way out is the exit of [checksum], when a marker exists
    and the declaration file cannot be read. *)
Theorem dev_only_declaration_panics (c : Config) (t : TomlTree) (w : World) :
  DepsTree c = None →
  DevDepsTree c = Some t →
  t ≠ [] →
  (LoadDependencyModel c w).1 = Panic ∨ (LoadDependencyModel c w).1 = Exit 1.
Proof.
  intros Hdeps Hdev Ht. unfold LoadDependencyModel.
  rewrite Hdeps, Hdev. rewrite decide_False; last first.
  { destruct t; [done|]. simpl. lia. }
  destruct (modifiedChecksum_outcome c w)
    as [(modified & c1 & w1 & Hm & Hd1 & _)|Hexit].
  - left. unfold bind, addDepsTree, Keys_of. by rewrite Hm, Hd1, Hdeps.
  - right. unfold bind.
    destruct (modifiedChecksum c w) as [[r|code| |] w1]; simpl in *;
      try done.
    by assert (code = 1%Z) as -> by congruence.
Qed.

(** *** C3: what a validation failure reports and how the run exits *)

#[global] Instance anything_preorder : PreOrder anything.
Proof. by split. Qed.

Lemma add_trace_nil (w : World) : add_trace [] w = w.
Proof. destruct w. unfold add_trace. simpl. by rewrite app_nil_r. Qed.

Lemma add_trace_app (evs1 evs2 : list Event) (w : World) :
  add_trace evs2 (add_trace evs1 w) = add_trace (evs1 ++ evs2) w.
Proof. unfold add_trace. simpl. by rewrite app_assoc. Qed.

Lemma print_errors_trace (errors : list ProjectError) :
  ∀ w, print_errors errors w
       = (Return tt, add_trace ((EvPrint ∘ ProjectError_String) <$> errors) w).
Proof.
  induction errors as [|e errors IH]; intros w; simpl.
  - by rewrite add_trace_nil.
  - unfold bind, emit. rewrite IH. unfold add_trace. simpl.
    by rewrite <-app_assoc.
Qed.

Lemma exit_one_emit e : obeys anything (λ z, z = 1%Z) (emit e).
Proof. by intros w. Qed.
Lemma exit_one_set_graph g : obeys anything (λ z, z = 1%Z) (set_graph g).
Proof. by intros w. Qed.
Lemma exit_one_fetch d b :
  obeys anything (λ z, z = 1%Z)
        (emit (EvValidate (Import d) true) ;;; Fetch d b).
Proof.
  intros w. split; [done|].
  unfold bind, emit, Fetch, retrieve, bind, ask, add_vendored, exit, ret. simpl.
  intros c. repeat (case_match; simplify_eq/=); by intros [= <-].
Qed.







(** *** C2: retrieval and validation *)

Lemma validated_first_nil : validated_first [].
Proof. by intros i p. Qed.

Lemma validated_first_app (evs1 evs2 : list Event) :
  validated_first evs1 → validated_first evs2 → validated_first (evs1 ++ evs2).
Proof.
  intros H1 H2 i p Hi.
  destruct (decide (i < length evs1)%nat) as [Hlt|Hge].
  - rewrite lookup_app_l in Hi by done.
    destruct (H1 i p Hi) as (j & -> & Hj). exists j. split; [done|].
    rewrite lookup_app_l by lia. done.
  - rewrite lookup_app_r in Hi by lia.
    destruct (H2 _ p Hi) as (j & Hij & Hj).
    exists (length evs1 + j)%nat. split; [lia|].
    rewrite lookup_app_r by lia.
    by replace (length evs1 + j - length evs1)%nat with j by lia.
Qed.



#[global] Instance grows_validated_preorder : PreOrder grows_validated.
Proof.
  split.
  - intros w. exists []. split; [by rewrite app_nil_r|apply validated_first_nil].
  - intros w1 w2 w3 (evs1 & H1 & Hv1) (evs2 & H2 & Hv2).
    exists (evs1 ++ evs2). split; [by rewrite H2, H1, app_assoc|].
    by apply validated_first_app.
Qed.




(** *** Runs that show the behaviour *)

Lemma dev_only_declaration_panics_witness :
  (LoadDependencyModel Scenario.dev_only_config
     (Scenario.first_run Scenario.dev_only)).1 = Panic
  ∨ (LoadDependencyModel Scenario.dev_only_config
       (Scenario.first_run Scenario.dev_only)).1 = Exit 1.
Proof.
  apply (dev_only_declaration_panics Scenario.dev_only_config
           [("foo", Scenario.entry [("import", "example.org/foo")])]);
    [reflexivity|reflexivity|discriminate].
Defined.

(** The whole run on a declaration with development dependencies only. *)
Example dev_only_run_panics :
  (loadDependencies 5 "." Scenario.stats
     (Scenario.first_run Scenario.dev_only)).1 = Panic.
Proof. vm_compute. reflexivity. Qed.





End LoadFacts.

(** ** The resolution pipeline *)

Module PipelineFacts.
Import Frame.











(** *** The order of the fetch steps *)







(** *** C8: the traversal *)



End PipelineFacts.

(** ** More on the import graph *)

Module GraphMore.
Import Graph GraphViews GraphFacts.

(** *** What Insert leaves behind *)

(** X1.  Insert never panics, whatever the graph and the import string
    (the empty string and strings with empty segments included), and the
    node at the end of the identifier's path is then a leaf holding the
    inserted Dep. *)
Theorem Insert_makes_leaf (g : Graph) (d : Dep) :
  ∃ g' n, Insert g d = Some g' ∧
          node_at (Roots g') (segments d) = Some n ∧
          Leaf n = true ∧ Dependency n = Some d.
Proof.
  destruct (Insert_total g d) as [g' Hg']. exists g'.
  assert (Hf : flags_at (Roots g') (segments d) = Some (true, Some d)).
  { rewrite (flags_at_Insert _ _ _ _ Hg'). by rewrite decide_True. }
  destruct (node_at_flags _ _ _ Hf) as (n & Hn & Hleaf & Hdep).
  by exists n.
Qed.

Lemma Insert_makes_leaf_witness :
  ∃ g' n, Insert NewGraph (NewDependency "") = Some g' ∧
          node_at (Roots g') (segments (NewDependency "")) = Some n ∧
          Leaf n = true ∧ Dependency n = Some (NewDependency "").
Proof. apply (Insert_makes_leaf NewGraph (NewDependency "")). Defined.

(** *** What Search answers *)

Lemma walk_Some (keys : list string) :
  ∀ nodes n,
    walk nodes keys = Some n →
    ∃ p, p ≠ [] ∧ p `prefix_of` keys ∧
         node_at nodes p = Some n ∧ Leaf n = true ∧
         ∀ q m, strict_prefix q p → node_at nodes q = Some m → Leaf m = false.
Proof.
  induction keys as [|k keys IH]; intros nodes n Hwalk; [done|].
  simpl in Hwalk. destruct (nodes !! k) as [m|] eqn:Hk; [|done].
  destruct (Leaf m) eqn:Hleaf.
  - injection Hwalk as <-. exists [k]. split_and!; [done| | |done|].
    + apply prefix_cons, prefix_nil.
    + simpl. by rewrite Hk.
    + intros q m' [Hpre Hne] Hq. destruct q as [|k' q]; [done|].
      destruct q; [|by apply prefix_cons_inv_2, prefix_nil_not in Hpre].
      pose proof (prefix_cons_inv_1 _ _ _ _ Hpre). by subst.
  - destruct (IH _ _ Hwalk) as (p & Hp & Hpre & Hat & Hl & Hfirst).
    exists (k :: p). split_and!; [done|by apply prefix_cons| |done|].
    + simpl. rewrite Hk. by destruct p.
    + intros q m' [Hqp Hne] Hq. destruct q as [|k' q]; [done|].
      pose proof (prefix_cons_inv_1 _ _ _ _ Hqp) as ->.
      apply prefix_cons_inv_2 in Hqp. simpl in Hq. rewrite Hk in Hq.
      destruct q as [|k1 q]; [by injection Hq as <-|].
      apply (Hfirst (k1 :: q)); [|done]. split; [done|congruence].
Qed.

Lemma walk_None (keys : list string) :
  ∀ nodes,
    walk nodes keys = None ↔
    ∀ p n, p `prefix_of` keys → node_at nodes p = Some n → Leaf n = false.
Proof.
  induction keys as [|k keys IH]; intros nodes.
  - split; [|done]. intros _ p n Hp%prefix_nil_inv. by subst.
  - simpl. split.
    + intros Hwalk p n Hp Hat. destruct p as [|k' p]; [done|].
      pose proof (prefix_cons_inv_1 _ _ _ _ Hp) as ->.
      apply prefix_cons_inv_2 in Hp. simpl in Hat.
      destruct (nodes !! k) as [m|] eqn:Hk; [|done].
      destruct (Leaf m) eqn:Hleaf; [done|].
      destruct p as [|k1 p]; [by injection Hat as <-|].
      by apply (proj1 (IH (Nodes m)) Hwalk (k1 :: p)).
    + intros Hnone. destruct (nodes !! k) as [m|] eqn:Hk; [|done].
      rewrite (Hnone [k] m); [|apply prefix_cons, prefix_nil|by simpl; rewrite Hk].
      apply IH. intros p n Hp Hat. destruct p as [|k1 p]; [done|].
      apply (Hnone (k :: k1 :: p)); [by apply prefix_cons|].
      simpl. by rewrite Hk.
Qed.

(** X2.  Search answers with a node only if that node is a leaf, lying at
    a non-empty prefix of the query path, with no leaf at any shorter
    prefix: the first leaf on the walk. *)
Theorem Search_first_leaf (g : Graph) (importPath : string) (n : Node) :
  Search g importPath = Some n →
  ∃ p, p ≠ [] ∧ p `prefix_of` Split importPath slash ∧
       node_at (Roots g) p = Some n ∧ Leaf n = true ∧
       ∀ q, strict_prefix q p → ¬ is_leaf g q.
Proof.
  intros Hs. destruct (walk_Some _ _ _ Hs) as (p & Hp & Hpre & Hat & Hl & Hfirst).
  exists p. split_and!; [done..|].
  intros q Hq Hleaf. unfold is_leaf, flags_at in Hleaf.
  destruct (node_at (Roots g) q) as [m|] eqn:Hm; [|done].
  simpl in Hleaf. rewrite (Hfirst q m Hq Hm) in Hleaf. done.
Qed.

Lemma Search_first_leaf_witness :
  ∃ p, p ≠ [] ∧ p `prefix_of` Split "a/b/c" slash ∧
       node_at (Roots (mkGraph {[ "a" := mkNode "a" (Some (NewDependency "a")) true ∅ ]}))
               p
       = Some (mkNode "a" (Some (NewDependency "a")) true ∅) ∧
       Leaf (mkNode "a" (Some (NewDependency "a")) true ∅) = true ∧
       ∀ q, strict_prefix q p →
            ¬ is_leaf (mkGraph {[ "a" := mkNode "a" (Some (NewDependency "a")) true ∅ ]}) q.
Proof.
  apply (Search_first_leaf
           (mkGraph {[ "a" := mkNode "a" (Some (NewDependency "a")) true ∅ ]})
           "a/b/c").
  vm_compute. reflexivity.
Defined.

(** X3.  Search answers nil exactly when no prefix of the query path
    holds a leaf: an identifier that only names inner nodes, or one that
    leaves the trie, finds nothing. *)
Theorem Search_nil_iff (g : Graph) (importPath : string) :
  Search g importPath = None ↔
  ∀ p, p `prefix_of` Split importPath slash → ¬ is_leaf g p.
Proof.
  unfold Search. rewrite walk_None. split.
  - intros Hnone p Hp Hleaf. unfold is_leaf, flags_at in Hleaf.
    destruct (node_at (Roots g) p) as [m|] eqn:Hm; [|done].
    simpl in Hleaf. by rewrite (Hnone p m Hp Hm) in Hleaf.
  - intros Hnone p n Hp Hat. destruct (Leaf n) eqn:Hleaf; [|done].
    destruct (Hnone p Hp). unfold is_leaf, flags_at. rewrite Hat. simpl.
    by rewrite Hleaf.
Qed.

Lemma Search_nil_iff_witness :
  Search (mkGraph {[ "a" := mkNode "a" None false
                             {[ "b" := mkNode "b" (Some (NewDependency "a/b")) true ∅ ]} ]})
         "a" = None.
Proof.
  apply (Search_nil_iff
           (mkGraph {[ "a" := mkNode "a" None false
                               {[ "b" := mkNode "b" (Some (NewDependency "a/b")) true ∅ ]} ]})
           "a").
  intros p Hp Hleaf.
  change (Split "a" slash) with ["a"] in Hp.
  destruct p as [|k [|k' p]].
  - by vm_compute in Hleaf.
  - pose proof (prefix_cons_inv_1 _ _ _ _ Hp) as ->. by vm_compute in Hleaf.
  - by apply prefix_cons_inv_2, prefix_nil_not in Hp.
Defined.

(** *** Search sees only the leaves along the query *)

Lemma leaf_view_Some (nodes : gmap string Node) (p : list string) dep :
  leaf_view nodes p = Some dep ↔
  ∃ n, node_at nodes p = Some n ∧ Leaf n = true ∧ Dependency n = dep.
Proof.
  unfold leaf_view, flags_at.
  destruct (node_at nodes p) as [n|]; simpl.
  - unfold flags. destruct (Leaf n) eqn:Hl.
    + split; [intros [= <-]; by exists n|].
      by intros (? & [= <-] & _ & <-).
    + split; [done|]. intros (? & [= <-] & ? & _). congruence.
  - split; [done|]. by intros (? & ? & _).
Qed.

Lemma leaf_view_None (nodes : gmap string Node) (p : list string) :
  leaf_view nodes p = None ↔
  ∀ n, node_at nodes p = Some n → Leaf n = false.
Proof.
  unfold leaf_view, flags_at.
  destruct (node_at nodes p) as [n|]; simpl.
  - unfold flags. destruct (Leaf n) eqn:Hl.
    + split; [done|]. intros Hn. specialize (Hn n eq_refl). congruence.
    + split; [|done]. by intros _ ? [= <-].
  - split; [|done]. by intros _ ? ?.
Qed.

Lemma walk_leaf_view (keys : list string) (n1 n2 : gmap string Node) :
  (∀ p, p ≠ [] → p `prefix_of` keys → leaf_view n1 p = leaf_view n2 p) →
  flags <$> walk n1 keys = flags <$> walk n2 keys.
Proof.
  intros Hsame. destruct (walk n1 keys) as [n|] eqn:Hwalk.
  - destruct (walk_Some _ _ _ Hwalk) as (p & Hp & Hpre & Hat & Hl & Hfirst).
    assert (Hv : leaf_view n2 p = Some (Dependency n)).
    { rewrite <-Hsame by done. apply leaf_view_Some. by exists n. }
    apply leaf_view_Some in Hv as (n' & Hat' & Hl' & Hdep').
    destruct Hpre as [rest ->].
    rewrite (walk_first_leaf p n2 n' rest Hat' Hl').
    + simpl. unfold flags. by rewrite Hl, Hl', Hdep'.
    + intros q m Hq Hm. destruct (decide (q = [])) as [->|Hne]; [done|].
      assert (Hv : leaf_view n2 q = None).
      { rewrite <-Hsame; [|done|].
        - apply leaf_view_None. intros m1 Hm1. by apply (Hfirst q).
        - destruct Hq as [Hq _]. by apply prefix_app_r. }
      by apply (proj1 (leaf_view_None _ _) Hv).
  - symmetry. simpl. apply fmap_None. apply walk_None.
    intros p n Hp Hat. destruct (decide (p = [])) as [->|Hne]; [done|].
    assert (Hv : leaf_view n2 p = None).
    { rewrite <-Hsame by done. apply leaf_view_None.
      intros m Hm. by apply (proj1 (walk_None _ _) Hwalk p). }
    by apply (proj1 (leaf_view_None _ _) Hv).
Qed.

Lemma leaf_view_Insert (g g' : Graph) (d : Dep) (p : list string) :
  Insert g d = Some g' → p ≠ segments d →
  leaf_view (Roots g') p = leaf_view (Roots g) p.
Proof.
  intros Hins Hp. unfold leaf_view. rewrite (flags_at_Insert _ _ _ _ Hins).
  rewrite decide_False by done. case_decide; [|done].
  by destruct (flags_at (Roots g) p) as [[[] ?]|].
Qed.

(** X4.  An Insert changes what Search answers only for identifiers that
    the inserted identifier is a prefix of: for every other query, Search
    finds a leaf before and after alike, with the same Dependency. *)
Theorem Insert_keeps_other_answers (g g' : Graph) (d : Dep) (importPath : string) :
  Insert g d = Some g' →
  ¬ segments d `prefix_of` Split importPath slash →
  flags <$> Search g' importPath = flags <$> Search g importPath.
Proof.
  intros Hins Hnot. unfold Search. apply walk_leaf_view.
  intros p Hp Hpre. apply (leaf_view_Insert _ _ d); [done|].
  by intros ->.
Qed.

Lemma Insert_keeps_other_answers_witness :
  flags <$> Search (mkGraph {[ "a" := mkNode "a" None false
                                 {[ "b" := mkNode "b" (Some (NewDependency "a/b")) true ∅;
                                    "c" := mkNode "c" (Some (NewDependency "a/c")) true ∅ ]} ]})
                   "a/b/x"
  = flags <$> Search (mkGraph {[ "a" := mkNode "a" None false
                                   {[ "b" := mkNode "b" (Some (NewDependency "a/b")) true ∅ ]} ]})
                     "a/b/x".
Proof.
  apply (Insert_keeps_other_answers _ _ (NewDependency "a/c")).
  - vm_compute. reflexivity.
  - apply (bool_decide_unpack _). vm_compute. reflexivity.
Defined.

(** X5.  Inserting two different identifiers gives the same trie in
    either order, as far as leaf flags and dependencies go: every path has
    the same flags, and every Search the same answer. *)
Theorem Insert_order_irrelevant (g gab gba : Graph) (a b : Dep) :
  segments a ≠ segments b →
  inserts g [a; b] = Some gab →
  inserts g [b; a] = Some gba →
  (∀ p, flags_at (Roots gab) p = flags_at (Roots gba) p) ∧
  (∀ importPath,
     flags <$> Search gab importPath = flags <$> Search gba importPath).
Proof.
  intros Hne Hab Hba. simpl in Hab, Hba.
  destruct (Insert g a) as [ga|] eqn:Ha; [|done].
  destruct (Insert g b) as [gb|] eqn:Hb; [|done].
  destruct (Insert ga b) as [gab'|] eqn:Hab'; [|done].
  destruct (Insert gb a) as [gba'|] eqn:Hba'; [|done].
  injection Hab as <-. injection Hba as <-.
  assert (Hflags : ∀ p, flags_at (Roots gab') p = flags_at (Roots gba') p).
  { intros p.
    rewrite (flags_at_Insert _ _ _ _ Hab'), (flags_at_Insert _ _ _ _ Hba').
    rewrite (flags_at_Insert _ _ _ _ Ha), (flags_at_Insert _ _ _ _ Hb).
    repeat case_decide; simplify_eq; try done;
      by destruct (flags_at (Roots g) p). }
  split; [done|]. intros importPath. unfold Search. apply walk_leaf_view.
  intros p _ _. unfold leaf_view. by rewrite Hflags.
Qed.

Lemma Insert_order_irrelevant_witness :
  (∀ p, flags_at (Roots (mkGraph {[ "a" := mkNode "a" (Some (NewDependency "a")) true
                                          {[ "b" := mkNode "b" (Some (NewDependency "a/b")) true ∅ ]} ]})) p
        = flags_at (Roots (mkGraph {[ "a" := mkNode "a" (Some (NewDependency "a")) true
                                            {[ "b" := mkNode "b" (Some (NewDependency "a/b")) true ∅ ]} ]})) p) ∧
  (∀ importPath,
     flags <$> Search (mkGraph {[ "a" := mkNode "a" (Some (NewDependency "a")) true
                                     {[ "b" := mkNode "b" (Some (NewDependency "a/b")) true ∅ ]} ]})
                      importPath
     = flags <$> Search (mkGraph {[ "a" := mkNode "a" (Some (NewDependency "a")) true
                                       {[ "b" := mkNode "b" (Some (NewDependency "a/b")) true ∅ ]} ]})
                        importPath).
Proof.
  apply (Insert_order_irrelevant NewGraph _ _
           (NewDependency "a/b") (NewDependency "a")).
  - by vm_compute.
  - vm_compute. reflexivity.
  - vm_compute. reflexivity.
Defined.

(** X6.  After any sequence of Inserts, which never panics, the leaves
    of the trie are the leaves it had before and the inserted identifiers:
    no Insert removes or unmarks a leaf. *)
Theorem leaves_after_inserts (g : Graph) (ds : list Dep) :
  ∃ g', inserts g ds = Some g' ∧
        ∀ p, is_leaf g' p ↔ is_leaf g p ∨ p ∈ identifiers ds.
Proof.
  destruct (inserts_total ds g) as [g' Hg']. exists g'. split; [done|].
  intros p. rewrite (is_leaf_inserts _ _ _ _ Hg'). unfold identifiers.
  rewrite elem_of_list_to_set, list_elem_of_fmap. naive_solver.
Qed.

Lemma leaves_after_inserts_witness :
  ∃ g', inserts NewGraph [NewDependency "a/b"; NewDependency "c"] = Some g' ∧
        ∀ p, is_leaf g' p ↔
             is_leaf NewGraph p
             ∨ p ∈ identifiers [NewDependency "a/b"; NewDependency "c"].
Proof.
  apply (leaves_after_inserts NewGraph [NewDependency "a/b"; NewDependency "c"]).
Defined.

(** *** Keys *)

Lemma keyed_unfold (nodes : gmap string Node) :
  keyed nodes ↔ ∀ k n, nodes !! k = Some n → Key n = k ∧ keyed (Nodes n).
Proof.
  split.
  - intros Hkeyed k n Hk. split.
    + specialize (Hkeyed [k] n). simpl in Hkeyed. rewrite Hk in Hkeyed.
      specialize (Hkeyed eq_refl). by injection Hkeyed.
    + intros p m Hm. destruct p as [|k1 p]; [done|].
      specialize (Hkeyed (k :: k1 :: p) m). simpl in Hkeyed.
      rewrite Hk in Hkeyed. by apply Hkeyed.
  - intros Hall p n Hn. destruct p as [|k p]; [done|]. simpl in Hn.
    destruct (nodes !! k) as [m|] eqn:Hk; [|done].
    destruct (Hall k m Hk) as [Hkey Hsub].
    destruct p as [|k1 p]; [by injection Hn as <-; rewrite Hkey|].
    by apply (Hsub (k1 :: p)).
Qed.

Lemma keyed_empty : keyed ∅.
Proof. intros p n. by rewrite node_at_empty. Qed.

Lemma keyed_insert (nodes : gmap string Node) (k : string) (n : Node) :
  keyed nodes → Key n = k → keyed (Nodes n) → keyed (<[k := n]> nodes).
Proof.
  intros Hnodes Hkey Hsub. apply keyed_unfold. intros k' n' Hk'.
  destruct (decide (k = k')) as [->|Hne].
  - rewrite lookup_insert_eq in Hk'. by injection Hk' as <-.
  - rewrite lookup_insert_ne in Hk' by done.
    by apply (proj1 (keyed_unfold nodes)).
Qed.

Lemma deepInsert_keyed (keys : list string) :
  ∀ nodes d k0 n',
    head keys = Some k0 → keyed nodes →
    deepInsert nodes keys d = Some n' →
    Key n' = k0 ∧ keyed (Nodes n').
Proof.
  induction keys as [|k rest IH]; intros nodes d k0 n' Hhd Hkeyed Hins; [done|].
  simpl in Hhd. assert (k0 = k) as -> by congruence. clear Hhd. simpl in Hins.
  set (node := match nodes !! k with
               | Some found => found
               | None => mkNode k None false ∅ end) in *.
  assert (Hnode : Key node = k ∧ keyed (Nodes node)).
  { unfold node. destruct (nodes !! k) as [found|] eqn:Hk.
    - by apply (proj1 (keyed_unfold nodes)).
    - split; [done|apply keyed_empty]. }
  destruct Hnode as [Hkey Hsub].
  destruct rest as [|k1 rest].
  - by injection Hins as <-.
  - destruct (deepInsert (Nodes node) (k1 :: rest) d) as [child|] eqn:Hchild;
      [|done].
    injection Hins as <-. simpl. split; [done|].
    destruct (IH _ _ _ _ eq_refl Hsub Hchild) as [Hck Hcsub].
    by apply keyed_insert.
Qed.

Lemma Insert_keyed (g g' : Graph) (d : Dep) :
  keyed (Roots g) → Insert g d = Some g' → keyed (Roots g').
Proof.
  unfold Insert. intros Hkeyed.
  destruct (Split_cons (Import d) slash) as (h & t & ->).
  destruct (deepInsert (Roots g) (h :: t) d) as [n'|] eqn:Hins; [|done].
  intros [= <-]. simpl.
  destruct (deepInsert_keyed (h :: t) (Roots g) d h n' eq_refl Hkeyed Hins)
    as [Hkey Hsub].
  by apply keyed_insert.
Qed.

(** X7.  In a trie built by Inserts from a new graph, every node carries
    as its Key the last segment of the path it is found at: the key it is
    stored under in its parent's map. *)
Theorem nodes_stored_under_their_key (ds : list Dep) :
  ∃ g, inserts NewGraph ds = Some g ∧
       ∀ p n, node_at (Roots g) p = Some n → last p = Some (Key n).
Proof.
  destruct (inserts_total ds NewGraph) as [g Hg]. exists g. split; [done|].
  assert (Hgen : ∀ ds g0 g1, keyed (Roots g0) → inserts g0 ds = Some g1 →
                             keyed (Roots g1)).
  { clear. intros ds. induction ds as [|d ds IH]; intros g0 g1 Hk Hins;
      simpl in Hins.
    - by injection Hins as <-.
    - destruct (Insert g0 d) as [g'|] eqn:Hd; [|done].
      apply (IH g' g1); [|done]. by eapply Insert_keyed. }
  apply (Hgen ds NewGraph g); [apply keyed_empty|done].
Qed.

Lemma nodes_stored_under_their_key_witness :
  ∃ g, inserts NewGraph [NewDependency "a/b"; NewDependency "a/c/d"] = Some g ∧
       ∀ p n, node_at (Roots g) p = Some n → last p = Some (Key n).
Proof.
  apply (nodes_stored_under_their_key
           [NewDependency "a/b"; NewDependency "a/c/d"]).
Defined.

(** *** Counting leaves *)

Lemma fold_leaves_insert (m : gmap string Node) (k : string) (c : Node) :
  map_fold (λ _ child acc, leaves child + acc) 0 (<[k := c]> m)
  + from_option leaves 0 (m !! k)
  = map_fold (λ _ child acc, leaves child + acc) 0 m + leaves c.
Proof.
  destruct (m !! k) as [old|] eqn:Hk; simpl.
  - rewrite <-(insert_delete_id m k old) at 2 by done.
    rewrite <-(insert_delete_eq m k c).
    rewrite !map_fold_insert_L; try (by rewrite lookup_delete_eq);
      try (intros; lia).
  - rewrite map_fold_insert_L; [lia|intros; lia|done].
Qed.

Lemma leaves_eq (n : Node) :
  leaves n = ((if Leaf n then 1 else 0)
              + map_fold (λ _ child acc, leaves child + acc) 0 (Nodes n))%nat.
Proof. by destruct n. Qed.

Lemma deepInsert_leaves (keys : list string) :
  ∀ nodes d k0 new,
    head keys = Some k0 →
    deepInsert nodes keys d = Some new →
    leaves new
    = (from_option leaves 0 (nodes !! k0)
       + if decide (fst <$> flags_at nodes keys = Some true) then 0 else 1)%nat.
Proof.
  induction keys as [|k rest IH]; intros nodes d k0 new Hhd Hins; [done|].
  simpl in Hhd. assert (k0 = k) as -> by congruence. clear Hhd. simpl in Hins.
  set (node := match nodes !! k with
               | Some found => found
               | None => mkNode k None false ∅ end) in *.
  assert (Hnode : leaves node = from_option leaves 0 (nodes !! k)).
  { unfold node. destruct (nodes !! k); [done|].
    rewrite leaves_eq. simpl. by rewrite map_fold_empty. }
  destruct rest as [|k1 rest].
  - injection Hins as <-. rewrite <-Hnode, !leaves_eq. simpl.
    assert (Hfl : fst <$> flags_at nodes [k] = Leaf <$> nodes !! k).
    { unfold flags_at. simpl. by destruct (nodes !! k). }
    rewrite Hfl. unfold node.
    destruct (nodes !! k) as [found|]; simpl.
    + destruct (Leaf found); simpl; try case_decide; simplify_eq; lia.
    + try case_decide; simplify_eq; lia.
  - destruct (deepInsert (Nodes node) (k1 :: rest) d) as [child|] eqn:Hchild;
      [|done].
    injection Hins as <-.
    pose proof (IH _ _ _ _ eq_refl Hchild) as Hc.
    pose proof (fold_leaves_insert (Nodes node) k1 child) as Hfold.
    assert (Hfl : flags_at nodes (k :: k1 :: rest)
                  = flags_at (Nodes node) (k1 :: rest)).
    { unfold flags_at, node. simpl.
      destruct (nodes !! k) as [found|]; simpl; [done|].
      by rewrite lookup_empty. }
    rewrite Hfl, <-Hnode, (leaves_eq node), (leaves_eq (mkNode _ _ _ _)).
    simpl. case_decide; lia.
Qed.

Lemma Insert_leaf_count (g g' : Graph) (d : Dep) :
  Insert g d = Some g' →
  leaf_count g'
  = (leaf_count g + if decide (is_leaf g (segments d)) then 0 else 1)%nat.
Proof.
  unfold Insert, is_leaf, segments, leaf_count.
  destruct (Split_cons (Import d) slash) as (h & t & ->).
  destruct (deepInsert (Roots g) (h :: t) d) as [new|] eqn:Hins; [|done].
  intros [= <-]. simpl.
  pose proof (deepInsert_leaves (h :: t) (Roots g) d h new eq_refl Hins) as Hnew.
  pose proof (fold_leaves_insert (Roots g) h new) as Hfold.
  repeat case_decide; try done; lia.
Qed.

Lemma leaf_count_inserts (ds : list Dep) :
  ∀ g g',
    inserts g ds = Some g' →
    leaf_count g'
    = (leaf_count g
       + size (filter (λ p, ¬ is_leaf g p) (identifiers ds)))%nat.
Proof.
  induction ds as [|d ds IH]; intros g g' Hins; simpl in Hins.
  - injection Hins as <-. unfold identifiers. simpl.
    assert (Hnil : filter (λ p, ¬ is_leaf g p) (∅ : gset (list string)) = ∅)
      by set_solver.
    rewrite Hnil, size_empty. lia.
  - destruct (Insert g d) as [g1|] eqn:Hd; [|done].
    rewrite (IH _ _ Hins), (Insert_leaf_count _ _ _ Hd).
    assert (Hset : filter (λ p, ¬ is_leaf g1 p) (identifiers ds)
                   = filter (λ p, ¬ is_leaf g p) (identifiers ds)
                     ∖ {[segments d]}).
    { apply set_eq. intros p. rewrite elem_of_difference, !elem_of_filter.
      rewrite (is_leaf_Insert _ _ _ _ Hd). set_solver. }
    rewrite Hset. clear Hset.
    set (F := filter (λ p, ¬ is_leaf g p) (identifiers ds)).
    case_decide as Hleaf.
    + assert (Hall : filter (λ p, ¬ is_leaf g p) (identifiers (d :: ds)) = F).
      { apply set_eq. intros p. unfold F, identifiers. simpl.
        rewrite !elem_of_filter, elem_of_union, elem_of_singleton.
        split; [|tauto]. intros [Hp [->|?]]; tauto. }
      assert (Hdiff : F ∖ {[segments d]} = F).
      { apply set_eq. intros p. unfold F.
        rewrite elem_of_difference, elem_of_filter, elem_of_singleton.
        split; [tauto|]. intros [Hp ?]. split; [done|]. by intros ->. }
      rewrite Hall, Hdiff. lia.
    + assert (Hall : filter (λ p, ¬ is_leaf g p) (identifiers (d :: ds))
                     = {[segments d]} ∪ F ∖ {[segments d]}).
      { apply set_eq. intros p. unfold F, identifiers. simpl.
        rewrite elem_of_union, elem_of_difference, !elem_of_filter,
          elem_of_union, !elem_of_singleton.
        destruct (decide (p = segments d)) as [->|?]; tauto. }
      rewrite Hall.
      pose proof (size_union (C := gset (list string)) {[segments d]}
                    (F ∖ {[segments d]})) as Hsz.
      rewrite Hsz by set_solver. rewrite size_singleton. lia.
Qed.

(** X8.  The number of leaves of a trie built by Inserts from a new
    graph is the number of distinct identifiers inserted: an identifier
    inserted again adds no leaf. *)
Theorem leaf_count_distinct (ds : list Dep) :
  ∃ g, inserts NewGraph ds = Some g ∧ leaf_count g = size (identifiers ds).
Proof.
  destruct (inserts_total ds NewGraph) as [g Hg]. exists g. split; [done|].
  rewrite (leaf_count_inserts _ _ _ Hg).
  assert (Hall : filter (λ p, ¬ is_leaf NewGraph p) (identifiers ds)
                 = identifiers ds).
  { apply set_eq. intros p. rewrite elem_of_filter.
    pose proof (is_leaf_NewGraph p). tauto. }
  rewrite Hall. unfold leaf_count. simpl. by rewrite map_fold_empty.
Qed.

Lemma leaf_count_distinct_witness :
  ∃ g, inserts NewGraph [NewDependency "a/b"; NewDependency "c";
                         NewDependency "a/b"] = Some g ∧
       leaf_count g = size (identifiers [NewDependency "a/b"; NewDependency "c";
                                         NewDependency "a/b"]).
Proof.
  apply (leaf_count_distinct [NewDependency "a/b"; NewDependency "c";
                              NewDependency "a/b"]).
Defined.

End GraphMore.

(** ** More on the configuration *)

Module ConfigMore.
Import Frame.

(** *** Inverting the steps of a run *)

Lemma as_tree_Return v t w w' :
  as_tree v w = (Return t, w') → v = Some (TTable t) ∧ w' = w.
Proof. destruct v as [[s|entries]|]; simpl; by intros [= <- <-]. Qed.

Lemma as_string_Return v s w w' :
  as_string v w = (Return s, w') → v = Some (TString s) ∧ w' = w.
Proof. destruct v as [[s'|entries]|]; simpl; by intros [= <- <-]. Qed.

Lemma store_inv {A} (l l' : list A) (pos : nat) (x : A) (w w' : World) :
  store l pos x w = (Return l', w') →
  (pos < length l)%nat ∧ l' = <[pos := x]> l ∧ w' = w.
Proof. unfold store. case_decide; [by intros [= <- <-]|done]. Qed.

Lemma emit_inv e r w w' :
  emit e w = (Return r, w') → w' = add_trace [e] w.
Proof. by intros [= _ <-]. Qed.

Lemma Fetch_inv (d d' : Dep) (b : bool) (w w' : World) :
  Fetch d b w = (Return d', w') →
  graph w' = graph w ∧ Import d' = Import d ∧ Validate d' = Validate d.
Proof.
  cbv [Fetch retrieve bind ask add_vendored exit ret emit]. simpl.
  repeat (case_match; simplify_eq/=); by intros [= <- <-].
Qed.

Lemma graph_Insert_inv (d : Dep) (w w' : World) :
  graph_Insert d w = (Return tt, w') →
  Graph.Insert (graph w) d = Some (graph w').
Proof.
  cbv [graph_Insert bind ask set_graph panic]. simpl.
  destruct (Graph.Insert (graph w) d) as [g'|]; [|done]. by intros [= <-].
Qed.

(** *** The slices of a loaded set *)

Lemma fill_slot {A} (l : list A) (pos n : nat) (x : A) (rest : list A) :
  (pos < length l)%nat →
  take (S pos) (<[pos := x]> l) ++ rest ++ drop (S pos + n) (<[pos := x]> l)
  = take pos l ++ (x :: rest) ++ drop (pos + S n) l.
Proof.
  intros Hpos.
  rewrite (take_S_r _ _ x) by (by apply list_lookup_insert_eq).
  rewrite take_insert_ge by lia. rewrite drop_insert_lt by lia.
  rewrite <-app_assoc. simpl. by replace (S (pos + n)) with (pos + S n)%nat by lia.
Qed.

Lemma addDepsTree_loop_slots (keys : list string) :
  ∀ deps t modified pos w deps' w',
    addDepsTree_loop deps t keys modified pos w = (Return (deps', None), w') →
    ∃ ds,
      length ds = length keys ∧
      Keys deps' = take pos (Keys deps) ++ keys
                   ++ drop (pos + length keys) (Keys deps) ∧
      Imports deps' = take pos (Imports deps) ++ (Import <$> ds)
                      ++ drop (pos + length keys) (Imports deps) ∧
      DepList deps' = take pos (DepList deps) ++ (Some <$> ds)
                      ++ drop (pos + length keys) (DepList deps) ∧
      Forall valid ds ∧
      Forall (λ d, Graph.is_leaf (graph w') (Graph.segments d)) ds ∧
      leaves_kept w w'.
Proof.
  induction keys as [|k keys IH];
    intros deps t modified pos w deps' w' Hrun; simpl in Hrun.
  - injection Hrun as <- <-. exists []. simpl.
    rewrite Nat.add_0_r, !take_drop.
    split_and!; [done..|apply Forall_nil_2|apply Forall_nil_2|by intros ?].
  - apply bind_Return in Hrun as (depTree & w1 & H1 & Hrun).
    apply as_tree_Return in H1 as [_ ->].
    apply bind_Return in Hrun as (importPath & w2 & H2 & Hrun).
    apply as_string_Return in H2 as [_ ->].
    cbv zeta in Hrun.
    destruct (Validate _) as [e|] eqn:Hvalid in Hrun.
    { apply bind_Return in Hrun as ([] & w3 & _ & Hrun). by injection Hrun. }
    apply bind_Return in Hrun as ([] & w3 & H3 & Hrun).
    apply emit_inv in H3 as ->.
    apply bind_Return in Hrun as (d' & w4 & Hfetch & Hrun).
    apply Fetch_inv in Hfetch as (Hg4 & Himp & Hval).
    apply bind_Return in Hrun as (keys' & w5 & H5 & Hrun).
    apply store_inv in H5 as (Hpos1 & -> & ->).
    apply bind_Return in Hrun as (imports' & w6 & H6 & Hrun).
    apply store_inv in H6 as (Hpos2 & -> & ->).
    apply bind_Return in Hrun as (list' & w7 & H7 & Hrun).
    apply store_inv in H7 as (Hpos3 & -> & ->).
    apply bind_Return in Hrun as ([] & w8 & H8 & Hrun).
    apply graph_Insert_inv in H8.
    destruct (IH _ _ _ _ _ _ _ Hrun)
      as (ds & Hlen & Hkeys & Himports & Hlist & Hvalid' & Hleaves & Hkept).
    simpl in Hkeys, Himports, Hlist.
    exists (d' :: ds). split_and!.
    + simpl. by rewrite Hlen.
    + rewrite Hkeys. by apply fill_slot.
    + rewrite Himports. by apply (fill_slot (Imports deps)).
    + rewrite Hlist. by apply (fill_slot (DepList deps)).
    + constructor; [|done]. unfold valid. by rewrite Hval.
    + constructor; [|done]. apply Hkept.
      apply (GraphFacts.is_leaf_Insert _ _ _ _ H8). by right.
    + intros p Hp. apply Hkept.
      apply (GraphFacts.is_leaf_Insert _ _ _ _ H8). left.
      by rewrite Hg4.
Qed.

Lemma addDepsTree_slots (deps : Dependencies) (t : option TomlTree)
    modified pos w deps' w' :
  addDepsTree deps t modified pos w = (Return (deps', None), w') →
  ∃ ds,
    length ds = length (keys_of t) ∧
    Keys deps' = take pos (Keys deps) ++ keys_of t
                 ++ drop (pos + length (keys_of t)) (Keys deps) ∧
    Imports deps' = take pos (Imports deps) ++ (Import <$> ds)
                    ++ drop (pos + length (keys_of t)) (Imports deps) ∧
    DepList deps' = take pos (DepList deps) ++ (Some <$> ds)
                    ++ drop (pos + length (keys_of t)) (DepList deps) ∧
    Forall valid ds ∧
    Forall (λ d, Graph.is_leaf (graph w') (Graph.segments d)) ds ∧
    leaves_kept w w'.
Proof.
  unfold addDepsTree. destruct t as [t|]; simpl.
  - apply addDepsTree_loop_slots.
  - intros [= <- <-]. exists []. simpl.
    rewrite Nat.add_0_r, !take_drop.
    split_and!; [done..|apply Forall_nil_2|apply Forall_nil_2|by intros ?].
Qed.

(** Filling a slice of the right length in two passes leaves no gap. *)
Lemma two_fills {A} (l0 a b : list A) :
  length l0 = (length a + length b)%nat →
  take (length a) (take 0 l0 ++ a ++ drop (0 + length a) l0) ++ b
  ++ drop (length a + length b) (take 0 l0 ++ a ++ drop (0 + length a) l0)
  = a ++ b.
Proof.
  intros Hlen. simpl. rewrite take_app_length, drop_app_add.
  by rewrite drop_ge, app_nil_r by (rewrite length_drop; lia).
Qed.

Lemma modifiedChecksum_inv (c c' : Config) (b : bool) (w w' : World) :
  modifiedChecksum c w = (Return (b, c'), w') →
  w' = w ∧ DepsTree c' = DepsTree c ∧ DevDepsTree c' = DevDepsTree c.
Proof.
  cbv [modifiedChecksum checksum fail bind ask emit exit ret]. simpl.
  repeat (case_match; simplify_eq/=); by intros [= <- <- <-].
Qed.

Lemma LoadDependencyModel_set (c c' : Config) (deps : Dependencies)
    err (w w' : World) :
  LoadDependencyModel c w = (Return (c', Some deps, err), w') →
  err = None ∧
  ∃ main ds,
    DepsTree c = Some main ∧
    Keys deps = TomlTree_Keys main ++ keys_of (DevDepsTree c) ∧
    DepList deps = Some <$> ds ∧
    Imports deps = Import <$> ds ∧
    length ds = length (Keys deps) ∧
    Forall valid ds ∧
    Forall (λ d, Graph.is_leaf (graph w') (Graph.segments d)) ds.
Proof.
  unfold LoadDependencyModel. case_decide as Hzero; [done|].
  intros Hrun.
  apply bind_Return in Hrun as ([modified c1] & w1 & Hm & Hrun).
  apply modifiedChecksum_inv in Hm as (-> & Hd & Hdev).
  apply bind_Return in Hrun as ([deps1 err1] & w2 & Hmain & Hrun).
  destruct err1 as [e|]; [done|].
  apply bind_Return in Hrun as (keys & w3 & Hkeys & Hrun).
  apply bind_Return in Hrun as ([deps2 err2] & w4 & Hdevrun & Hrun).
  rewrite Hd in Hmain, Hkeys. rewrite Hdev in Hdevrun.
  destruct (DepsTree c) as [main|] eqn:Hmaintree; [|done].
  injection Hkeys as <- <-.
  destruct err2 as [e|]; [done|]. unfold ret in Hrun. simplify_eq.
  split; [done|]. exists main.
  apply addDepsTree_slots in Hmain
    as (ds1 & Hlen1 & Hk1 & Hi1 & Hl1 & Hv1 & Hleaf1 & Hkept1).
  apply addDepsTree_slots in Hdevrun
    as (ds2 & Hlen2 & Hk2 & Hi2 & Hl2 & Hv2 & Hleaf2 & Hkept2).
  simpl in *. exists (ds1 ++ ds2).
  set (total := (length (TomlTree_Keys main)
                 + match DevDepsTree c with
                   | Some t => length (TomlTree_Keys t)
                   | None => 0
                   end)%nat) in *.
  assert (Htotal : total = (length (TomlTree_Keys main)
                            + length (keys_of (DevDepsTree c)))%nat).
  { unfold total, keys_of. by destruct (DevDepsTree c). }
  assert (Hkeys : Keys deps
                  = TomlTree_Keys main ++ keys_of (DevDepsTree c)).
  { rewrite Hk2, Hk1. simpl. apply two_fills. by rewrite length_replicate. }
  split_and!; [done|done| | | | |].
  - rewrite Hl2, Hl1, fmap_app. simpl.
    rewrite <-(length_fmap Some ds1) in Hlen1.
    rewrite <-(length_fmap Some ds2) in Hlen2.
    rewrite <-Hlen1, <-Hlen2. apply two_fills.
    rewrite length_replicate. lia.
  - rewrite Hi2, Hi1, fmap_app. simpl.
    rewrite <-(length_fmap Import ds1) in Hlen1.
    rewrite <-(length_fmap Import ds2) in Hlen2.
    rewrite <-Hlen1, <-Hlen2. apply two_fills.
    rewrite length_replicate. lia.
  - rewrite Hkeys, !length_app. lia.
  - by apply Forall_app.
  - apply Forall_app. split; [|done].
    eapply Forall_impl; [done|]. intros d. apply Hkept2.
Qed.

(** X9.  The set that LoadDependencyModel returns has its three slices
    filled and aligned: the keys are those of the main table followed by
    those of the development table, no Dep is nil, and each import string
    is the identifier of the Dep at the same index. *)
Theorem loaded_slices_aligned (c c' : Config) (deps : Dependencies) err
    (w w' : World) :
  LoadDependencyModel c w = (Return (c', Some deps, err), w') →
  err = None ∧
  ∃ main ds,
    DepsTree c = Some main ∧
    Keys deps = TomlTree_Keys main ++ keys_of (DevDepsTree c) ∧
    DepList deps = Some <$> ds ∧
    Imports deps = Import <$> ds ∧
    length ds = length (Keys deps).
Proof.
  intros Hrun.
  destruct (LoadDependencyModel_set _ _ _ _ _ _ Hrun)
    as (-> & main & ds & Hmain & Hkeys & Hlist & Himports & Hlen & _ & _).
  split; [done|]. by exists main, ds.
Qed.

Lemma loaded_slices_aligned_witness :
  (None : option string) = None ∧
  ∃ main ds,
    DepsTree Scenario.one_dep_config = Some main ∧
    Keys Scenario.one_dep_set
    = TomlTree_Keys main ++ keys_of (DevDepsTree Scenario.one_dep_config) ∧
    DepList Scenario.one_dep_set = Some <$> ds ∧
    Imports Scenario.one_dep_set = Import <$> ds ∧
    length ds = length (Keys Scenario.one_dep_set).
Proof.
  eapply (loaded_slices_aligned Scenario.one_dep_config _ Scenario.one_dep_set
            None (Scenario.first_run Scenario.one_dep)).
  vm_compute. reflexivity.
Defined.

(** X10.  Every Dep of the set that LoadDependencyModel returns is
    registered in the import graph: its identifier is a leaf path there, a
    Search of its identifier finds a leaf, and no leaf the graph had before
    is lost. *)
Theorem loaded_deps_are_leaves (c c' : Config) (deps : Dependencies) err
    (w w' : World) (d : Dep) :
  LoadDependencyModel c w = (Return (c', Some deps, err), w') →
  Some d ∈ DepList deps →
  Graph.is_leaf (graph w') (Graph.segments d) ∧
  (∃ n, Graph.Search (graph w') (Import d) = Some n) ∧
  leaves_kept w w'.
Proof.
  intros Hrun Hd.
  destruct (LoadDependencyModel_set _ _ _ _ _ _ Hrun)
    as (-> & main & ds & Hmain & Hkeys & Hlist & Himports & Hlen & _ & Hleaves).
  assert (Hleaf : Graph.is_leaf (graph w') (Graph.segments d)).
  { rewrite Hlist in Hd. apply list_elem_of_fmap in Hd as (d0 & [= ->] & Hd0).
    by apply (proj1 (Forall_forall _ _) Hleaves). }
  split_and!; [done| |].
  - destruct (Graph.Search (graph w') (Import d)) as [n|] eqn:Hs; [by exists n|].
    unfold Graph.Search in Hs.
    pose proof (proj1 (GraphMore.walk_None _ _) Hs (Graph.segments d)) as Hnone.
    unfold Graph.is_leaf, Graph.flags_at in Hleaf.
    destruct (Graph.node_at (Graph.Roots (graph w')) (Graph.segments d))
      as [n|] eqn:Hn; [|done].
    simpl in Hleaf. rewrite (Hnone n) in Hleaf; done.
  - revert Hrun. unfold LoadDependencyModel. case_decide as Hzero; [done|].
    intros Hrun.
    apply bind_Return in Hrun as ([modified c1] & w1 & Hm & Hrun).
    apply modifiedChecksum_inv in Hm as (-> & _ & _).
    apply bind_Return in Hrun as ([deps1 err1] & w2 & Hmainrun & Hrun).
    destruct err1 as [e|]; [done|].
    apply bind_Return in Hrun as (keys & w3 & Hk & Hrun).
    assert (w3 = w2) as ->.
    { unfold Keys_of in Hk. destruct (DepsTree c1); [|done]. by injection Hk. }
    apply bind_Return in Hrun as ([deps2 err2] & w4 & Hdevrun & Hrun).
    destruct err2 as [e|]; [done|]. unfold ret in Hrun. simplify_eq.
    apply addDepsTree_slots in Hmainrun as (? & _ & _ & _ & _ & _ & _ & Hk1).
    apply addDepsTree_slots in Hdevrun as (? & _ & _ & _ & _ & _ & _ & Hk2).
    intros p Hp. by apply Hk2, Hk1.
Qed.

Lemma loaded_deps_are_leaves_witness :
  Graph.is_leaf
    (graph (LoadDependencyModel Scenario.one_dep_config
              (Scenario.first_run Scenario.one_dep)).2)
    (Graph.segments (mkDep "example.org/foo" "" "" BranchFlag "dev" false)) ∧
  (∃ n, Graph.Search
          (graph (LoadDependencyModel Scenario.one_dep_config
                    (Scenario.first_run Scenario.one_dep)).2)
          (Import (mkDep "example.org/foo" "" "" BranchFlag "dev" false))
        = Some n) ∧
  leaves_kept (Scenario.first_run Scenario.one_dep)
              (LoadDependencyModel Scenario.one_dep_config
                 (Scenario.first_run Scenario.one_dep)).2.
Proof.
  eapply (loaded_deps_are_leaves Scenario.one_dep_config _ Scenario.one_dep_set
            None (Scenario.first_run Scenario.one_dep)).
  - vm_compute. reflexivity.
  - apply list_elem_of_here.
Defined.

(** X11.  LoadDependencyModel returns no set and no error exactly when
    neither table declares an entry; it then leaves the world and the
    configuration as they are, without looking at the marker. *)
Theorem nothing_declared (c : Config) (w : World) :
  (keys_of (DepsTree c) = [] → keys_of (DevDepsTree c) = [] →
   LoadDependencyModel c w = (Return (c, None, None), w)) ∧
  (∀ c' w', LoadDependencyModel c w = (Return (c', None, None), w') →
            keys_of (DepsTree c) = [] ∧ keys_of (DevDepsTree c) = []).
Proof.
  split.
  - intros H1 H2. unfold LoadDependencyModel. rewrite decide_True; [done|].
    unfold keys_of in *.
    destruct (DepsTree c), (DevDepsTree c); simpl in *;
      rewrite ?H1, ?H2; done.
  - intros c' w'. unfold LoadDependencyModel. case_decide as Hzero.
    + intros _. unfold keys_of.
      destruct (DepsTree c) as [t1|], (DevDepsTree c) as [t2|]; simpl in *;
        split; try done; apply length_zero_iff_nil; lia.
    + intros Hrun.
      apply bind_Return in Hrun as ([modified c1] & w1 & Hm & Hrun).
      apply bind_Return in Hrun as ([deps1 err1] & w2 & Hmainrun & Hrun).
      destruct err1 as [e|]; [done|].
      apply bind_Return in Hrun as (keys & w3 & Hk & Hrun).
      apply bind_Return in Hrun as ([deps2 err2] & w4 & Hdevrun & Hrun).
      by destruct err2.
Qed.

Lemma nothing_declared_witness :
  LoadDependencyModel (mkConfig None "gopack.config" "example.org/me" (Some []) None)
                      (Scenario.first_run [])
  = (Return (mkConfig None "gopack.config" "example.org/me" (Some []) None,
             None, None),
     Scenario.first_run []).
Proof.
  by apply (proj1 (nothing_declared
                     (mkConfig None "gopack.config" "example.org/me" (Some []) None)
                     (Scenario.first_run []))).
Defined.

(** *** Indexing stays in range *)

Lemma bind_no_panic {A B} (m : M A) (k : A → M B) (w : World) :
  (m w).1 ≠ Panic →
  (∀ a w1, m w = (Return a, w1) → (k a w1).1 ≠ Panic) →
  (bind m k w).1 ≠ Panic.
Proof.
  intros Hm Hk. unfold bind.
  destruct (m w) as [[a|code| |] w1]; simpl in *; try done.
  by apply Hk.
Qed.

Lemma Fetch_no_panic (d : Dep) (b : bool) (w : World) :
  (Fetch d b w).1 ≠ Panic.
Proof.
  cbv [Fetch retrieve bind ask add_vendored exit ret emit]. simpl.
  by repeat (case_match; simplify_eq/=).
Qed.

Lemma graph_Insert_no_panic (d : Dep) (w : World) :
  (graph_Insert d w).1 ≠ Panic.
Proof.
  cbv [graph_Insert bind ask set_graph panic]. simpl.
  by destruct (GraphFacts.Insert_total (graph w) d) as [g' ->].
Qed.

Lemma addDepsTree_loop_no_panic (keys : list string) :
  ∀ deps t modified pos w,
    (∀ k, k ∈ keys →
          ∃ entry importPath,
            TomlTree_Get t k = Some (TTable entry) ∧
            TomlTree_Get entry "import" = Some (TString importPath)) →
    (pos + length keys ≤ length (Keys deps))%nat →
    length (Imports deps) = length (Keys deps) →
    length (DepList deps) = length (Keys deps) →
    (addDepsTree_loop deps t keys modified pos w).1 ≠ Panic.
Proof.
  induction keys as [|k keys IH];
    intros deps t modified pos w Hwf Hpos Hlen1 Hlen2; simpl; [done|].
  destruct (Hwf k) as (entry & importPath & Hentry & Himport);
    [apply list_elem_of_here|].
  rewrite Hentry. simpl. unfold bind at 1. simpl.
  rewrite Himport. simpl. unfold bind at 1. simpl.
  destruct (Validate _) as [e|] eqn:Hvalid; [done|].
  apply bind_no_panic; [done|]. intros [] w3 _.
  apply bind_no_panic; [apply Fetch_no_panic|]. intros d' w4 _.
  simpl in Hpos.
  unfold store. rewrite !decide_True by lia.
  unfold bind at 1. simpl. unfold bind at 1. simpl. unfold bind at 1. simpl.
  apply bind_no_panic; [apply graph_Insert_no_panic|]. intros [] w5 _.
  apply IH; simpl; rewrite ?length_insert; try lia.
  intros k' Hk'. apply Hwf. by apply list_elem_of_further.
Qed.

Lemma well_formed_keys (t : TomlTree) :
  well_formed t →
  ∀ k, k ∈ TomlTree_Keys t →
       ∃ entry importPath,
         TomlTree_Get t k = Some (TTable entry) ∧
         TomlTree_Get entry "import" = Some (TString importPath).
Proof. done. Qed.

(** X12.  With a main table present and every entry of both tables a
    table with a string under "import", LoadDependencyModel never panics:
    every index it assigns lies inside the slices it made, and every Insert
    succeeds. *)
Theorem LoadDependencyModel_in_range (c : Config) (main : TomlTree) (w : World) :
  DepsTree c = Some main →
  well_formed main →
  (∀ dev, DevDepsTree c = Some dev → well_formed dev) →
  (LoadDependencyModel c w).1 ≠ Panic.
Proof.
  intros Hmain Hwf Hwfdev. unfold LoadDependencyModel.
  case_decide as Hzero; [done|].
  apply bind_no_panic.
  { destruct (LoadFacts.modifiedChecksum_outcome c w)
      as [(b & c1 & w1 & -> & _)|Hexit]; [done|]. by rewrite Hexit. }
  intros [modified c1] w1 Hm.
  apply modifiedChecksum_inv in Hm as (-> & Hd & Hdev).
  rewrite Hd, Hdev, Hmain. simpl.
  set (total := (length (TomlTree_Keys main)
                 + match DevDepsTree c with
                   | Some t => length (TomlTree_Keys t)
                   | None => 0
                   end)%nat) in *.
  apply bind_no_panic.
  { apply addDepsTree_loop_no_panic; simpl; rewrite ?length_replicate;
      [by apply well_formed_keys|lia|done|done]. }
  intros [deps1 err1] w2 Hmainrun. destruct err1 as [e|]; [done|].
  unfold bind at 1. simpl.
  apply (addDepsTree_loop_slots _ _ main) in Hmainrun
    as (ds1 & Hl1 & Hk1 & Hi1 & Hd1 & _).
  simpl in Hk1, Hi1, Hd1.
  assert (Hlen : length (Keys deps1) = total
                 ∧ length (Imports deps1) = total
                 ∧ length (DepList deps1) = total).
  { rewrite Hk1, Hi1, Hd1.
    rewrite !length_app, !length_drop, !length_fmap, !length_replicate.
    unfold total. lia. }
  destruct Hlen as (Hlk & Hli & Hld).
  apply bind_no_panic.
  { unfold addDepsTree. destruct (DevDepsTree c) as [dev|] eqn:Hdevtree; [|done].
    apply addDepsTree_loop_no_panic; [|unfold total in *; lia|lia|lia].
    by apply well_formed_keys, Hwfdev. }
  intros [deps2 err2] w3 _. by destruct err2.
Qed.

Lemma LoadDependencyModel_in_range_witness :
  (LoadDependencyModel Scenario.one_dep_config
     (Scenario.first_run Scenario.one_dep)).1 ≠ Panic.
Proof.
  apply (LoadDependencyModel_in_range Scenario.one_dep_config
           [("foo", Scenario.entry [("import", "example.org/foo");
                                    ("branch", "dev")])]).
  - reflexivity.
  - intros k Hk. apply list_elem_of_singleton in Hk as ->.
    by eexists _, _.
  - intros dev. discriminate.
Defined.

End ConfigMore.

(** ** The import graph over a run *)

Module RunMore.
Import Frame.

#[global] Instance leaves_kept_preorder : PreOrder leaves_kept.
Proof.
  split; [by intros w p|].
  intros w1 w2 w3 H1 H2 p Hp. by apply H2, H1.
Qed.

#[global] Instance registered_preorder : PreOrder registered.
Proof.
  split.
  - intros w. split; [done|]. intros i Hi. by left.
  - intros w1 w2 w3 [Hk1 Hu1] [Hk2 Hu2]. split; [by etrans|].
    intros i Hi. destruct (Hu2 i Hi) as [Hi2|Hleaf]; [|by right].
    destruct (Hu1 i Hi2) as [Hi1|Hleaf]; [by left|].
    right. by apply Hk2.
Qed.

Lemma bind_assoc {A B C} (m : M A) (k : A → M B) (h : B → M C) (w : World) :
  bind (bind m k) h w = bind m (λ a, bind (k a) h) w.
Proof. unfold bind. by destruct (m w) as [[a|?| |] w1]. Qed.

Lemma obeys_Return {A} (R : relation World) (E : Z → Prop) (m : M A)
    (w w' : World) (a : A) :
  obeys R E m → m w = (Return a, w') → R w w'.
Proof. intros Hm Heq. pose proof (proj1 (Hm w)) as H. by rewrite Heq in H. Qed.

(** One step of a sequence, with what the first part returned at hand. *)
Lemma step_bind {A B} (R : relation World) `{!PreOrder R}
    (m : M A) (k : A → M B) (w : World) :
  R w (m w).2 →
  (∀ a w1, m w = (Return a, w1) → R w1 (k a w1).2) →
  R w (bind m k w).2.
Proof.
  intros Hm Hk. unfold bind.
  destruct (m w) as [[a|?| |] w1] eqn:Heq; simpl in *; try done.
  etrans; [done|]. by apply Hk.
Qed.

(** A frame for relations that hold across an Insert into the graph of
    the run, but not across its replacement, and across every event but,
    at first, an update. *)
Section grown.
Context (R : relation World) `{!PreOrder R} (E : Z → Prop).
Context (ok : Event → Prop).
Hypothesis E_one : E 1.
Hypothesis R_emit : ∀ e, ok e → obeys R E (emit e).
Hypothesis ok_other : ∀ e, (∀ i, e ≠ EvUpdate i) → ok e.
Hypothesis R_insert : ∀ d, obeys R E (graph_Insert d).
Hypothesis R_vendored : ∀ i, obeys R E (add_vendored i).

Ltac side :=
  first [ exact E_one | exact R_emit
        | intros; apply ok_other; intros ? ?; discriminate ].

Ltac known :=
  first
    [ apply (obeys_ret R E) | apply (obeys_panic R E)
    | apply (obeys_out_of_fuel R E) | apply (obeys_ask R E)
    | apply (obeys_exit R E E_one)
    | solve [apply R_emit; side] | apply R_insert | apply R_vendored
    | apply (obeys_as_string R E) | apply (obeys_as_tree R E)
    | apply (obeys_store R E)
    | solve [apply (obeys_fail R E ok); side]
    | solve [apply (obeys_failf R E ok); side]
    | solve [apply (obeys_fmtcolor R E ok); side]
    | solve [apply (obeys_NewConfig R E ok); side]
    | solve [apply (obeys_modifiedChecksum R E ok); side]
    | solve [apply (obeys_switchToBranchOrTag R E ok); side] ].

Ltac step :=
  match goal with
  | |- obeys _ _ (bind _ _) => apply (obeys_bind R E); [|intros]
  | |- obeys _ _ (let _ := _ in _) => cbv zeta
  | |- obeys _ _ (match ?x with _ => _ end) => destruct x
  | H : ∀ _, obeys _ _ _ |- _ => apply H
  | _ => known
  end.
Ltac steps := repeat step.

Lemma grown_Fetch d b : obeys R E (Fetch d b).
Proof. unfold Fetch, retrieve. steps. Qed.
Lemma grown_InitRepo c : obeys R E (InitRepo c).
Proof. unfold InitRepo. steps. Qed.
Lemma grown_addDepsTree_loop keys :
  ∀ deps t modified pos,
    obeys R E (addDepsTree_loop deps t keys modified pos).
Proof.
  induction keys as [|k keys IH]; intros; simpl; steps;
    try apply grown_Fetch; apply IH.
Qed.
Lemma grown_addDepsTree deps t modified pos :
  obeys R E (addDepsTree deps t modified pos).
Proof. unfold addDepsTree. steps. apply grown_addDepsTree_loop. Qed.
Lemma grown_LoadDependencyModel c : obeys R E (LoadDependencyModel c).
Proof.
  unfold LoadDependencyModel, Keys_of. steps; apply grown_addDepsTree.
Qed.
Lemma grown_LoadTransitiveDeps d : obeys R E (LoadTransitiveDeps d).
Proof. unfold LoadTransitiveDeps. steps. apply grown_LoadDependencyModel. Qed.

(** [loadConfiguration], from the fresh graph on. *)
Lemma grown_loadConfiguration dir w :
  R (set_graph Graph.NewGraph w).2 (loadConfiguration dir w).2.
Proof.
  unfold loadConfiguration.
  match goal with
  | |- context [bind (set_graph ?g) ?k w] =>
      change (bind (set_graph g) k w) with (k tt (set_graph g w).2);
      assert (H : obeys R E (k tt))
  end.
  { cbv beta. steps; try apply grown_InitRepo;
      apply grown_LoadDependencyModel. }
  apply H.
Qed.

Hypothesis ok_update : ∀ i, ok (EvUpdate i).

Lemma grown_routine recurse dep :
  (∀ t, obeys R E (recurse t)) → obeys R E (routine recurse dep).
Proof.
  intros Hrec. unfold routine.
  steps; try apply grown_LoadTransitiveDeps.
  apply (obeys_Dep_Get R E ok); side || exact ok_update.
Qed.
Lemma grown_loadTransitiveDependencies fuel :
  ∀ deps, obeys R E (loadTransitiveDependencies fuel deps).
Proof.
  induction fuel as [|fuel IH]; intros deps; simpl; [steps|].
  apply (obeys_visit R E). intros d. by apply grown_routine.
Qed.
End grown.

(** *** No leaf is lost *)

Lemma leaves_emit e : obeys leaves_kept (λ _, True) (emit e).
Proof. intros w. split; [by intros p|done]. Qed.
Lemma leaves_vendored i : obeys leaves_kept (λ _, True) (add_vendored i).
Proof. intros w. split; [by intros p|done]. Qed.
Lemma leaves_set_marker f : obeys leaves_kept (λ _, True) (set_marker f).
Proof. intros w. split; [by intros p|done]. Qed.
Lemma leaves_insert d : obeys leaves_kept (λ _, True) (graph_Insert d).
Proof.
  intros w. split; [|done]. unfold graph_Insert, bind, ask. simpl.
  destruct (Graph.Insert (graph w) d) as [g'|] eqn:Hins; simpl; [|done].
  intros p Hp. apply (GraphFacts.is_leaf_Insert _ _ _ _ Hins). by left.
Qed.

Lemma leaves_LoadDependencyModel c w :
  leaves_kept w (LoadDependencyModel c w).2.
Proof.
  apply (grown_LoadDependencyModel leaves_kept (λ _, True) (λ _, True));
    auto using leaves_emit, leaves_insert, leaves_vendored.
Qed.
Lemma leaves_loadTransitiveDependencies fuel deps w :
  leaves_kept w (loadTransitiveDependencies fuel deps w).2.
Proof.
  apply (grown_loadTransitiveDependencies leaves_kept (λ _, True) (λ _, True));
    auto using leaves_emit, leaves_insert, leaves_vendored.
Qed.
Lemma leaves_failWith es w : leaves_kept w (failWith es w).2.
Proof.
  apply (obeys_failWith leaves_kept (λ _, True) (λ _, True));
    auto using leaves_emit.
Qed.
Lemma leaves_WriteChecksum c w : leaves_kept w (WriteChecksum c w).2.
Proof.
  apply (obeys_WriteChecksum leaves_kept (λ _, True) (λ _, True));
    auto using leaves_emit, leaves_set_marker.
Qed.

(** *** What the graph holds after a run *)

Lemma leaf_answers (g : Graph.Graph) (p : list string) (importPath : string) :
  Graph.is_leaf g p → p `prefix_of` Split importPath slash →
  ∃ n, Graph.Search g importPath = Some n.
Proof.
  intros Hleaf Hp.
  destruct (Graph.Search g importPath) as [n|] eqn:Hs; [by exists n|].
  unfold Graph.Search in Hs.
  pose proof (proj1 (GraphMore.walk_None _ _) Hs p) as Hnone.
  unfold Graph.is_leaf, Graph.flags_at in Hleaf.
  destruct (Graph.node_at (Graph.Roots g) p) as [n|] eqn:Hn; [|done].
  simpl in Hleaf. rewrite (Hnone n) in Hleaf; done.
Qed.

Lemma checksum_Repository (c c' : Config) (sum : string) (w w' : World) :
  checksum c w = (Return (sum, c'), w') → Repository c' = Repository c.
Proof.
  cbv [checksum fail bind ask emit exit ret]. simpl.
  repeat (case_match; simplify_eq/=); by intros [= <- <- <-].
Qed.

Lemma LoadDependencyModel_Repository (c c' : Config) deps err (w w' : World) :
  LoadDependencyModel c w = (Return (c', deps, err), w') →
  Repository c' = Repository c.
Proof.
  unfold LoadDependencyModel. case_decide as Hzero.
  { by intros [= <- _ _ _]. }
  intros H.
  apply bind_Return in H as ([modified c1] & w1 & Hm & H).
  assert (Repository c1 = Repository c) as <-.
  { revert Hm. unfold modifiedChecksum. unfold bind at 1, ask. simpl.
    destruct (ReadFile (marker w)) as [dat []]; try by intros [= _ <- _].
    - intros Hb.
      apply bind_Return in Hb as ([sum c2] & w2 & Hc & [= _ <- _]).
      by apply checksum_Repository in Hc.
    - intros Hb.
      apply bind_Return in Hb as ([sum c2] & w2 & Hc & [= _ <- _]).
      by apply checksum_Repository in Hc. }
  apply bind_Return in H as ([deps1 err1] & w2 & _ & H).
  destruct err1 as [e|]; [by injection H as <- _ _ _|].
  apply bind_Return in H as (keys & w3 & _ & H).
  apply bind_Return in H as ([deps2 err2] & w4 & _ & H).
  destruct err2 as [e|]; by injection H as <- _ _ _.
Qed.

Lemma WriteChecksum_Repository (c c' : Config) (w w' : World) :
  WriteChecksum c w = (Return c', w') → Repository c' = Repository c.
Proof.
  unfold WriteChecksum. intros H.
  apply bind_Return in H as ([sum c1] & w1 & Hc & H).
  apply checksum_Repository in Hc as <-.
  apply bind_Return in H as (broken & w2 & _ & H).
  destruct broken.
  - by apply bind_Return in H as (? & ? & _ & [=]).
  - apply bind_Return in H as ([] & w3 & _ & H).
    apply bind_Return in H as ([] & w4 & _ & H). by injection H as <- _.
Qed.

Lemma InitRepo_leaf (c : Config) (w w' : World) :
  InitRepo c w = (Return tt, w') →
  Repository c ≠ "" →
  Graph.is_leaf (graph w') (Split (Repository c) slash).
Proof.
  intros H Hrepo. unfold InitRepo in H. rewrite decide_True in H by done.
  apply bind_Return in H as ([] & w1 & _ & H).
  apply bind_Return in H as (broken & w2 & _ & H).
  apply bind_Return in H as ([] & w3 & _ & H).
  apply ConfigMore.graph_Insert_inv in H.
  apply (GraphFacts.is_leaf_Insert _ _ _ _ H). by right.
Qed.

Lemma loadConfiguration_members (dir : string) (w w1 : World)
    (c : Config) (deps : Dependencies) :
  loadConfiguration dir w = (Return (c, Some deps), w1) →
  members_registered deps w1 ∧
  (Repository c ≠ "" →
   Graph.is_leaf (graph w1) (Split (Repository c) slash)).
Proof.
  unfold loadConfiguration. intros Hconf.
  apply bind_Return in Hconf as ([] & wa & Hg & Hconf).
  apply bind_Return in Hconf as (c0 & wb & Hnew & Hconf).
  apply bind_Return in Hconf as ([] & wc & Hinit & Hconf).
  apply bind_Return in Hconf as ([[c1 deps'] err] & wd & Hload & Hconf).
  destruct err as [e|].
  { by apply bind_Return in Hconf as (? & ? & _ & [=]). }
  injection Hconf as -> -> ->. split.
  - destruct (ConfigMore.LoadDependencyModel_set _ _ _ _ _ _ Hload)
      as (_ & main & ds & _ & _ & Hlist & _ & _ & _ & Hleaves).
    intros d Hd. rewrite Hlist in Hd.
    apply list_elem_of_fmap in Hd as (d0 & [= ->] & Hd0).
    by apply (proj1 (Forall_forall _ _) Hleaves).
  - intros Hrepo.
    rewrite (LoadDependencyModel_Repository _ _ _ _ _ _ Hload) in Hrepo |- *.
    pose proof (leaves_LoadDependencyModel c0 wc) as Hkept.
    rewrite Hload in Hkept. apply Hkept. by apply (InitRepo_leaf c0 wb).
Qed.

(** X13.  After a run of loadDependencies that returns a set, the import
    graph holds every Dep of the set and the project itself: the
    identifier of each is a leaf path, so that Search answers for it, and,
    for the repository, for every import path below it. *)
Theorem run_keeps_dependencies (fuel : nat) (root : string) (p : ProjectStats)
    (w w' : World) (c : Config) (deps : Dependencies) :
  loadDependencies fuel root p w = (Return (c, Some deps), w') →
  (∀ d, Some d ∈ DepList deps →
        Graph.is_leaf (graph w') (Graph.segments d) ∧
        ∃ n, Graph.Search (graph w') (Import d) = Some n) ∧
  (Repository c ≠ "" →
   Graph.is_leaf (graph w') (Split (Repository c) slash) ∧
   ∀ sub, ∃ n, Graph.Search (graph w') (Repository c +:+ "/" +:+ sub) = Some n).
Proof.
  unfold loadDependencies. intros H.
  apply bind_Return in H as ([c1 deps1] & w1 & Hconf & H).
  destruct deps1 as [deps1|]; [|by injection H].
  apply bind_Return in H as ([] & w2 & Hval & H).
  apply bind_Return in H as ([] & w3 & Htrans & H).
  apply bind_Return in H as (c2 & w4 & Hwrite & H).
  injection H as <- <- <-.
  destruct (loadConfiguration_members _ _ _ _ _ Hconf) as [Hmem Hrepo].
  assert (Hkept : leaves_kept w1 w4).
  { pose proof (leaves_failWith (Dependencies_Validate deps1 p) w1) as H2.
    pose proof (leaves_loadTransitiveDependencies fuel deps1 w2) as H3.
    pose proof (leaves_WriteChecksum c1 w3) as H4.
    rewrite Hval in H2. rewrite Htrans in H3. rewrite Hwrite in H4.
    simpl in *. by etrans; [|etrans]. }
  split.
  - intros d Hd. pose proof (Hkept _ (Hmem d Hd)) as Hleaf.
    split; [done|]. by apply (leaf_answers _ (Graph.segments d)).
  - rewrite (WriteChecksum_Repository _ _ _ _ Hwrite). intros Hne.
    pose proof (Hkept _ (Hrepo Hne)) as Hleaf. split; [done|].
    intros sub. apply (leaf_answers _ (Split (Repository c1) slash)); [done|].
    change (Repository c1 +:+ "/" +:+ sub)
      with (Repository c1 +:+ String slash sub).
    rewrite GraphFacts.Split_app. by apply prefix_app_r.
Qed.

Lemma run_keeps_dependencies_witness :
  (∀ d, Some d ∈ DepList Scenario.with_repo_set →
        Graph.is_leaf
          (graph (loadDependencies 5 "." Scenario.stats
                    (Scenario.first_run Scenario.with_repo)).2)
          (Graph.segments d) ∧
        ∃ n, Graph.Search
               (graph (loadDependencies 5 "." Scenario.stats
                         (Scenario.first_run Scenario.with_repo)).2)
               (Import d) = Some n) ∧
  (Repository Scenario.with_repo_config ≠ "" →
   Graph.is_leaf
     (graph (loadDependencies 5 "." Scenario.stats
               (Scenario.first_run Scenario.with_repo)).2)
     (Split (Repository Scenario.with_repo_config) slash) ∧
   ∀ sub, ∃ n, Graph.Search
                 (graph (loadDependencies 5 "." Scenario.stats
                           (Scenario.first_run Scenario.with_repo)).2)
                 (Repository Scenario.with_repo_config +:+ "/" +:+ sub)
               = Some n).
Proof.
  apply (run_keeps_dependencies 5 "." Scenario.stats
           (Scenario.first_run Scenario.with_repo)).
  vm_compute. reflexivity.
Defined.

(** *** Nothing is updated that the graph does not hold *)

Lemma registered_emit e :
  (∀ i, e ≠ EvUpdate i) → obeys registered (λ _, True) (emit e).
Proof.
  intros He w. split; [|done]. split; [by intros p|]. simpl.
  intros i Hi. left. apply elem_of_app in Hi as [Hi|Hi]; [done|].
  apply list_elem_of_singleton in Hi. by destruct (He i).
Qed.
Lemma registered_vendored i : obeys registered (λ _, True) (add_vendored i).
Proof. intros w. split; [|done]. split; [by intros p|]. intros ? ?. by left. Qed.
Lemma registered_set_marker f : obeys registered (λ _, True) (set_marker f).
Proof. intros w. split; [|done]. split; [by intros p|]. intros ? ?. by left. Qed.
Lemma registered_insert d : obeys registered (λ _, True) (graph_Insert d).
Proof.
  intros w. split; [|done]. split; [apply leaves_insert|].
  unfold graph_Insert, bind, ask. simpl.
  destruct (Graph.Insert (graph w) d) as [g'|]; simpl; intros ? ?; by left.
Qed.

Lemma registered_Dep_Get (d : Dep) (w : World) :
  Graph.is_leaf (graph w) (Graph.segments d) →
  registered w (Dep_Get d w).2.
Proof.
  intros Hleaf. unfold Dep_Get, bind, emit, ask, exit, ret. simpl.
  assert (Hupd : ∀ i, EvUpdate i ∈ trace w ++ [EvUpdate (Import d)] →
                      EvUpdate i ∈ trace w
                      ∨ Graph.is_leaf (graph w) (Split i slash)).
  { intros i Hi. apply elem_of_app in Hi as [Hi|Hi]; [by left|].
    apply list_elem_of_singleton in Hi as [= ->]. by right. }
  destruct (bool_decide _); simpl; (split; [by intros p|done]).
Qed.

Lemma registered_LoadTransitiveDeps (d : Dep) (w : World) :
  registered w (LoadTransitiveDeps d w).2.
Proof.
  apply (grown_LoadTransitiveDeps registered (λ _, True)
           (λ e, ∀ i, e ≠ EvUpdate i));
    auto using registered_emit, registered_insert, registered_vendored.
Qed.

Lemma LoadTransitiveDeps_members (d : Dep) (w w' : World)
    (t : Dependencies) err :
  LoadTransitiveDeps d w = (Return (Some t, err), w') →
  members_registered t w'.
Proof.
  unfold LoadTransitiveDeps. intros H.
  apply bind_Return in H as (c & w1 & _ & H).
  apply bind_Return in H as ([[c1 deps] err1] & w2 & Hload & H).
  injection H as -> -> ->.
  destruct (ConfigMore.LoadDependencyModel_set _ _ _ _ _ _ Hload)
    as (_ & main & ds & _ & _ & Hlist & _ & _ & _ & Hleaves).
  intros d' Hd. rewrite Hlist in Hd.
  apply list_elem_of_fmap in Hd as (d0 & [= ->] & Hd0).
  by apply (proj1 (Forall_forall _ _) Hleaves).
Qed.

Lemma registered_routine (recurse : Dependencies → M unit)
    (dep : option Dep) (w : World) :
  (∀ t w1, members_registered t w1 → registered w1 (recurse t w1).2) →
  (∀ d, dep = Some d → Graph.is_leaf (graph w) (Graph.segments d)) →
  registered w (routine recurse dep w).2.
Proof.
  intros Hrec Hleaf. destruct dep as [d|]; [|reflexivity].
  specialize (Hleaf d eq_refl). unfold routine.
  assert (Hprint : ∀ text, obeys registered (λ _, True) (fmtcolor text)).
  { intros text. apply registered_emit. by intros i. }
  apply (step_bind registered); [apply Hprint|]. intros [] w1 H1.
  apply (obeys_Return _ _ _ _ _ _ (Hprint _)) in H1 as [Hk1 _].
  apply (step_bind registered); [by apply registered_Dep_Get, Hk1|]. intros [] w2 _.
  apply (step_bind registered).
  { case_decide; [|reflexivity].
    apply (step_bind registered); [apply Hprint|]. intros [] w3 _.
    apply (obeys_switchToBranchOrTag registered (λ _, True)
             (λ e, ∀ i, e ≠ EvUpdate i));
      auto using registered_emit. }
  intros [] w3 _. destruct (fetch d); [|reflexivity].
  apply (step_bind registered); [apply registered_LoadTransitiveDeps|].
  intros [transitive err] w4 Hload. destruct err as [e|].
  { apply (obeys_failf registered (λ _, True) (λ e, ∀ i, e ≠ EvUpdate i));
      auto using registered_emit. }
  destruct transitive as [t|]; [|reflexivity].
  apply Hrec. by apply (LoadTransitiveDeps_members d w3 w4 t None).
Qed.

Lemma registered_visit (recurse : Dependencies → M unit) :
  (∀ t w1, members_registered t w1 → registered w1 (recurse t w1).2) →
  ∀ l w,
    (∀ d, Some d ∈ l → Graph.is_leaf (graph w) (Graph.segments d)) →
    registered w (visit l (routine recurse) w).2.
Proof.
  intros Hrec. induction l as [|dep l IH]; intros w Hleaf; [reflexivity|].
  simpl.
  assert (Hfirst : registered w (routine recurse dep w).2).
  { apply registered_routine; [done|]. intros d ->. apply Hleaf, list_elem_of_here. }
  apply (step_bind registered); [done|]. intros [] w1 H1. rewrite H1 in Hfirst.
  apply IH. intros d Hd. apply Hfirst, Hleaf. by apply list_elem_of_further.
Qed.

Lemma registered_loadTransitiveDependencies (fuel : nat) :
  ∀ deps w,
    members_registered deps w →
    registered w (loadTransitiveDependencies fuel deps w).2.
Proof.
  induction fuel as [|fuel IH]; intros deps w Hmem; [reflexivity|].
  simpl. unfold VisitDeps. by apply registered_visit.
Qed.

(** X14.  Whatever way a run of loadDependencies ends, every Dep it has
    updated is registered in the import graph of the run: each update the
    trace has gained names a leaf path of the final graph. *)
Theorem updates_are_registered (fuel : nat) (root : string) (p : ProjectStats)
    (w : World) (i : string) :
  EvUpdate i ∈ trace (loadDependencies fuel root p w).2 →
  EvUpdate i ∈ trace w ∨
  Graph.is_leaf (graph (loadDependencies fuel root p w).2) (Split i slash).
Proof.
  assert (Hrun : registered (set_graph Graph.NewGraph w).2
                            (loadDependencies fuel root p w).2).
  { unfold loadDependencies.
    assert (Hconf : registered (set_graph Graph.NewGraph w).2
                               (loadConfiguration root w).2).
    { apply (grown_loadConfiguration registered (λ _, True)
               (λ e, ∀ i, e ≠ EvUpdate i));
        auto using registered_emit, registered_insert, registered_vendored. }
    unfold bind at 1.
    destruct (loadConfiguration root w) as [[[c [deps|]]|?| |] w1] eqn:Hload;
      simpl in Hconf; try done.
    etrans; [done|].
    destruct (loadConfiguration_members _ _ _ _ _ Hload) as [Hmem _].
    apply (step_bind registered).
    { apply (obeys_failWith registered (λ _, True) (λ e, ∀ i, e ≠ EvUpdate i));
        auto using registered_emit. }
    intros [] w2 Hval. apply (step_bind registered).
    { apply registered_loadTransitiveDependencies. intros d Hd.
      assert (Hk : registered w1 (failWith (Dependencies_Validate deps p) w1).2).
      { apply (obeys_failWith registered (λ _, True)
                 (λ e, ∀ i, e ≠ EvUpdate i));
          auto using registered_emit. }
      rewrite Hval in Hk. by apply Hk, Hmem. }
    intros [] w3 _. apply (step_bind registered); [|reflexivity].
    apply (obeys_WriteChecksum registered (λ _, True)
             (λ e, ∀ i, e ≠ EvUpdate i));
      auto using registered_emit, registered_set_marker. }
  intros Hi. by apply Hrun.
Qed.

Lemma updates_are_registered_witness :
  EvUpdate "example.org/foo"
    ∈ trace (Scenario.first_run Scenario.with_repo) ∨
  Graph.is_leaf
    (graph (loadDependencies 5 "." Scenario.stats
              (Scenario.first_run Scenario.with_repo)).2)
    (Split "example.org/foo" slash).
Proof.
  apply (updates_are_registered 5 "." Scenario.stats
           (Scenario.first_run Scenario.with_repo) "example.org/foo").
  apply (list_elem_of_lookup_2 _ 4). vm_compute. reflexivity.
Defined.

End RunMore.

(** ** The digest and the exit status *)

Module StatusMore.
Import Frame.

(** X15.  The digest of the declaration file is read once: after a call
    of checksum has returned, every later call on the configuration it
    returned gives the same text without reading the file, in any world,
    so modifiedChecksum compares the marker with that text and WriteChecksum
    writes it, though the file may have changed or be gone. *)
Theorem digest_read_once (c c1 : Config) (w w1 : World) (sum : string) :
  checksum c w = (Return (sum, c1), w1) →
  ∀ w2,
    checksum c1 w2 = (Return (sum, c1), w2) ∧
    (∀ dat, marker w2 = Content dat →
            modifiedChecksum c1 w2
            = (Return (negb (String.eqb dat sum), c1), w2)) ∧
    (write_fails w2 = false →
     ∃ w3, WriteChecksum c1 w2 = (Return c1, w3) ∧
           marker w3 = Content sum ∧
           trace w3 = trace w2 ++ [EvWriteChecksum sum]).
Proof.
  intros Hsum w2.
  assert (Hagain : checksum c1 w2 = (Return (sum, c1), w2)).
  { revert Hsum. unfold checksum.
    destruct (Checksum c) as [s|] eqn:Hs.
    - intros [= <- <- <-]. by rewrite Hs.
    - unfold bind, ask. simpl. destruct (files w !! Path c) as [f|]; [|done].
      by intros [= <- <- <-]. }
  split_and!; [done| |].
  - intros dat Hm. unfold modifiedChecksum. unfold bind at 1, ask. simpl.
    rewrite Hm. simpl. unfold bind. by rewrite Hagain.
  - intros Hw. unfold WriteChecksum. unfold bind at 1. rewrite Hagain.
    unfold bind, ask, emit, set_marker, ret. simpl. rewrite Hw.
    by eexists.
Qed.

Lemma digest_read_once_witness :
  checksum Scenario.one_dep_digested Scenario.file_gone
  = (Return ("30313233343536373839616263646566", Scenario.one_dep_digested),
     Scenario.file_gone) ∧
  (∀ dat, marker Scenario.file_gone = Content dat →
          modifiedChecksum Scenario.one_dep_digested Scenario.file_gone
          = (Return (negb (String.eqb dat "30313233343536373839616263646566"),
                     Scenario.one_dep_digested),
             Scenario.file_gone)) ∧
  (write_fails Scenario.file_gone = false →
   ∃ w3, WriteChecksum Scenario.one_dep_digested Scenario.file_gone
         = (Return Scenario.one_dep_digested, w3) ∧
         marker w3 = Content "30313233343536373839616263646566" ∧
         trace w3
         = trace Scenario.file_gone
           ++ [EvWriteChecksum "30313233343536373839616263646566"]).
Proof.
  apply (digest_read_once Scenario.one_dep_config Scenario.one_dep_digested
           (Scenario.first_run Scenario.one_dep)
           (Scenario.first_run Scenario.one_dep)).
  vm_compute. reflexivity.
Defined.

Lemma bind_unfold {A B} (m : M A) (k : A → M B) (w : World) :
  bind m k w
  = match m w with
    | (Return a, w') => k a w'
    | (Exit c, w') => (Exit c, w')
    | (Panic, w') => (Panic, w')
    | (OutOfFuel, w') => (OutOfFuel, w')
    end.
Proof. reflexivity. Qed.

Lemma exit_one_set_marker f : obeys anything (λ z, z = 1%Z) (set_marker f).
Proof. by intros w. Qed.

(** X16.  loadDependencies never exits with status 0.  It exits with 1,
    or else with the number of errors that Dependencies.Validate reported
    for the loaded set, and then it has printed those errors and done
    nothing else after the configuration was loaded: nothing is updated
    and the marker is not written. *)
Theorem exit_status_of_run (fuel : nat) (root : string) (p : ProjectStats)
    (w : World) (code : Z) :
  (loadDependencies fuel root p w).1 = Exit code →
  (0 < code)%Z ∧
  (code = 1%Z ∨
   ∃ c deps w1,
     loadConfiguration root w = (Return (c, Some deps), w1) ∧
     code = Z.of_nat (length (Dependencies_Validate deps p)) ∧
     (loadDependencies fuel root p w).2
     = add_trace ((EvPrint ∘ ProjectError_String)
                    <$> Dependencies_Validate deps p) w1).
Proof.
  unfold loadDependencies. rewrite (bind_unfold (loadConfiguration root)).
  assert (Hconf : obeys anything (λ z, z = 1%Z) (loadConfiguration root)).
  { apply obeys_loadConfiguration with (ok := λ _, True);
      auto using LoadFacts.exit_one_emit, LoadFacts.exit_one_set_graph,
        LoadFacts.exit_one_fetch;
      try apply _. }
  destruct (Hconf w) as [_ Hexit1].
  destruct (loadConfiguration root w) as [[[c [deps|]]|c0| |] w1] eqn:Hload;
    simpl in *; try done.
  2:{ intros [= <-]. rewrite (Hexit1 c0 eq_refl). split; [lia|by left]. }
  rewrite (bind_unfold (failWith _)). unfold failWith.
  case_decide as Herrors.
  { rewrite !(bind_unfold (print_errors _)), LoadFacts.print_errors_trace.
    simpl. intros [= <-]. split; [lia|]. right. by exists c, deps, w1. }
  simpl. rewrite (bind_unfold (loadTransitiveDependencies fuel deps)).
  assert (Htrans : obeys anything (λ z, z = 1%Z)
                         (loadTransitiveDependencies fuel deps)).
  { apply obeys_loadTransitiveDependencies with (ok := λ _, True);
      auto using LoadFacts.exit_one_emit, LoadFacts.exit_one_set_graph,
        LoadFacts.exit_one_fetch;
      try apply _. }
  destruct (Htrans w1) as [_ Hexit2].
  destruct (loadTransitiveDependencies fuel deps w1) as [[[]|c2| |] w2];
    simpl in *; try done.
  2:{ intros [= <-]. rewrite (Hexit2 c2 eq_refl). split; [lia|by left]. }
  rewrite (bind_unfold (WriteChecksum c)).
  assert (Hwrite : obeys anything (λ z, z = 1%Z) (WriteChecksum c)).
  { apply obeys_WriteChecksum with (ok := λ _, True);
      auto using LoadFacts.exit_one_emit, exit_one_set_marker;
      try apply _. }
  destruct (Hwrite w2) as [_ Hexit3].
  destruct (WriteChecksum c w2) as [[c3|c3| |] w3]; simpl in *; try done.
  intros [= <-]. rewrite (Hexit3 c3 eq_refl). split; [lia|by left].
Qed.

Lemma exit_status_of_run_witness :
  (0 < 2)%Z ∧
  (2%Z = 1%Z ∨
   ∃ c deps w1,
     loadConfiguration "." (Scenario.first_run Scenario.thrice)
     = (Return (c, Some deps), w1) ∧
     2%Z = Z.of_nat (length (Dependencies_Validate deps Scenario.stats)) ∧
     (loadDependencies 5 "." Scenario.stats
        (Scenario.first_run Scenario.thrice)).2
     = add_trace ((EvPrint ∘ ProjectError_String)
                    <$> Dependencies_Validate deps Scenario.stats) w1).
Proof.
  apply (exit_status_of_run 5 "." Scenario.stats
           (Scenario.first_run Scenario.thrice) 2).
  vm_compute. reflexivity.
Defined.

End StatusMore.

(** ** Declarations that name themselves *)

Module CycleMore.
Import Frame.

Lemma declares_itself_ext (key i : string) (w w' : World) :
  files w' = files w → unreachable w' = unreachable w →
  declares_itself key i w → declares_itself key i w'.
Proof. intros Hf Hu [Hfile Hreach]. split; [by rewrite Hf|by rewrite Hu]. Qed.

Lemma modifiedChecksum_returns (c : Config) (w : World) (f : DeclFile) :
  files w !! Path c = Some f → Checksum c = None →
  ∃ b c', modifiedChecksum c w = (Return (b, c'), w) ∧
          DepsTree c' = DepsTree c ∧ DevDepsTree c' = DevDepsTree c.
Proof.
  intros Hf Hc. unfold modifiedChecksum, checksum. rewrite Hc.
  unfold bind, ask. simpl.
  destruct (marker w); simpl; rewrite ?Hf; by eexists _, _.
Qed.

Lemma Fetch_owner (i : string) (d : Dep) (b : bool) (w : World) :
  Import d = i →
  i ∉ unreachable w →
  is_Some (files w !! Join (nested_dir d) "gopack.config") →
  ∃ w', Fetch d b w
        = (Return (mkDep i (Scm d) (Source d) (CheckoutFlag d)
                         (CheckoutSpec d) true), w') ∧
        files w' = files w ∧ unreachable w' = unreachable w.
Proof.
  intros <- Hreach Hfile.
  assert (Howns : ∀ w', files w' = files w → owns_declaration d w' = true).
  { intros w' Hf. unfold owns_declaration. rewrite Hf.
    by apply bool_decide_eq_true_2. }
  unfold Fetch, retrieve, bind, ask, emit, add_vendored, ret. simpl.
  destruct (negb b && bool_decide (Import d ∈ vendored w)); simpl;
    rewrite ?(bool_decide_eq_false_2 _ Hreach); simpl;
    rewrite Howns by done; by eexists.
Qed.

Lemma self_level (key i : string) (w : World) :
  i ≠ "" →
  declares_itself key i w →
  ∃ w', LoadTransitiveDeps (owner i) w
        = (Return (Some (self_set key i), None), w') ∧
        declares_itself key i w'.
Proof.
  intros Hi [(f & Hf & Hparsed) Hreach].
  unfold LoadTransitiveDeps, NewConfig, LoadFile.
  set (path := Join (nested_dir (owner i)) "gopack.config") in *.
  set (entries := [(key, TTable [("import", TString i)])]).
  set (c := mkConfig None path "" (Some entries) None).
  assert (Hnew : NewConfig (nested_dir (owner i)) w = (Return c, w)).
  { unfold NewConfig, LoadFile. cbv zeta. fold path. unfold bind at 1, ask.
    cbv beta iota. rewrite Hf. simpl. rewrite Hparsed. reflexivity. }
  destruct (modifiedChecksum_returns c w f Hf eq_refl)
    as (b & c' & Hm & Hdeps & Hdev).
  destruct (Fetch_owner i (NewDependency i) b
              (add_trace [EvValidate i true] w) eq_refl Hreach)
    as (w1 & Hfetch & Hf1 & Hu1).
  { change (is_Some (files w !! path)). by rewrite Hf. }
  destruct (GraphFacts.Insert_total (graph w1) (owner i)) as [g' Hg'].
  eexists. split.
  - apply bind_Return. exists c, w. split; [exact Hnew|].
    apply bind_Return.
    exists (c', Some (self_set key i), None). eexists. split; [|reflexivity].
    unfold LoadDependencyModel. simpl.
    apply bind_Return. exists (b, c'), w. split; [exact Hm|].
    rewrite Hdeps, Hdev. simpl.
    apply bind_Return. exists (self_set key i, None). eexists. split.
    + rewrite String.eqb_refl. unfold bind at 1. simpl.
      unfold bind at 1. simpl.
      unfold Validate. simpl. rewrite decide_False by done.
      apply bind_Return. exists tt, (add_trace [EvValidate i true] w).
      split; [reflexivity|].
      apply bind_Return. eexists _, w1. split; [exact Hfetch|].
      unfold store. simpl.
      unfold bind at 1. simpl. unfold bind at 1. simpl. unfold bind at 1. simpl.
      apply bind_Return. exists tt. eexists. split; [|reflexivity].
      unfold graph_Insert, bind, ask. simpl. change (mkDep i "" "" NoFlag "" true) with (owner i).
      rewrite Hg'. reflexivity.
    + reflexivity.
  - simpl. apply (declares_itself_ext key i w); [done..|].
    split; [by exists f|done].
Qed.

Lemma Dep_Get_reach (d : Dep) (w : World) :
  Import d ∉ unreachable w →
  Dep_Get d w = (Return tt, add_trace [EvUpdate (Import d)] w).
Proof.
  intros Hreach. unfold Dep_Get, bind, emit, ask. simpl.
  by rewrite (bool_decide_eq_false_2 _ Hreach).
Qed.

Lemma routine_self (recurse : Dependencies → M unit) (key i : string)
    (w : World) :
  i ≠ "" →
  (∀ w', declares_itself key i w' →
         (recurse (self_set key i) w').1 = OutOfFuel) →
  declares_itself key i w →
  (routine recurse (Some (owner i)) w).1 = OutOfFuel.
Proof.
  intros Hi Hrec Hself. unfold routine.
  rewrite (StatusMore.bind_unfold (fmtcolor _)).
  unfold fmtcolor at 1, emit at 1. cbv beta iota.
  set (w1 := mkWorld _ _ _ _ _ _ _ _ _).
  assert (Hself1 : declares_itself key i w1)
    by (by apply (declares_itself_ext key i w)).
  rewrite (StatusMore.bind_unfold (Dep_Get _)).
  rewrite Dep_Get_reach by apply Hself1.
  set (w2 := add_trace _ w1).
  assert (Hself2 : declares_itself key i w2)
    by (by apply (declares_itself_ext key i w1)).
  simpl.
  destruct (self_level key i w2 Hi Hself2) as (w3 & Hload & Hself3).
  rewrite (StatusMore.bind_unfold (ret _)). unfold ret at 1. cbv beta iota.
  rewrite (StatusMore.bind_unfold (LoadTransitiveDeps _)), Hload.
  by apply Hrec.
Qed.

(** X17.  The recursion over nested declarations has no guard against a
    declaration that names its own package: when the vendored copy of a
    dependency declares that same dependency, the resolution of the set
    reaches no end at any depth, whatever the rest of the world is. *)
Theorem self_declaration_never_resolves (key i : string) (w : World)
    (fuel : nat) :
  i ≠ "" →
  declares_itself key i w →
  (loadTransitiveDependencies fuel (self_set key i) w).1 = OutOfFuel.
Proof.
  intros Hi. revert w. induction fuel as [|fuel IH]; intros w Hself;
    [reflexivity|].
  change (loadTransitiveDependencies (S fuel) (self_set key i) w)
    with (bind (routine (loadTransitiveDependencies fuel) (Some (owner i)))
               (λ _, ret tt) w).
  rewrite (StatusMore.bind_unfold (routine _ _)).
  pose proof (routine_self (loadTransitiveDependencies fuel) key i w Hi
                (λ w' Hw', IH w' Hw') Hself) as Hout.
  by destruct (routine _ _ w) as [[[]|?| |] w1]; simpl in *.
Qed.

Lemma self_declaration_never_resolves_witness :
  (loadTransitiveDependencies 7 (self_set "loop" "example.org/loop")
     Scenario.loop_world).1 = OutOfFuel.
Proof.
  apply (self_declaration_never_resolves "loop" "example.org/loop"
           Scenario.loop_world 7).
  - done.
  - split; [|by apply not_elem_of_empty].
    exists (mkDeclFile
              (Some [("deps",
                      TTable [("loop",
                               TTable [("import",
                                        TString "example.org/loop")])])])
              "00112233445566778899aabbccddeeff").
    split; [|reflexivity]. vm_compute. reflexivity.
Defined.

End CycleMore.
